(** * Module-instance hierarchy of the Verilog sidebar

    A shallow embedding of [src/sidebar/InstancesView.ts] (the reverse
    instance index) and of the scope tree and the hierarchical path
    lookup of [ProjectComponent] (classes [ScopeItem], [ModuleItem],
    [LogicItem], [RootItem], [InternalScopeItem] and the [setInstance]
    command), with the properties of the hierarchy specification stated
    over them. *)

From Stdlib Require Import Ascii QArith Qround Lqa.
From stdpp Require Import gmap strings list fin_maps sorting.

Open Scope string_scope.
Open Scope list_scope.
Open Scope Z_scope.
Open Scope nat_scope.

(** ** The symbol table (analysis/Symbol)

    A [Symbol] is a parsed declaration.  The fields are the ones the
    sidebar reads: [name], [type] (the kind, a ctags kind string),
    [typeRef] and [children].  JavaScript compares symbols by reference;
    [sid] stands for the reference of the object, so that two symbols
    declared with the same text in two places stay distinct keys of a
    [Map]. *)

Unset Elimination Schemes.
Inductive Symbol : Type :=
  mkSymbol {
    sid : positive;
    name : string;
    type : string;
    typeRef : option string;
    children : list Symbol
  }.
Set Elimination Schemes.

Lemma Symbol_ind (P : Symbol -> Prop)
  (Hnode : forall i n t r ch, Forall P ch -> P (mkSymbol i n t r ch)) :
  forall s, P s.
Proof.
  fix IH 1. intros [i n t r ch]. apply Hnode.
  induction ch as [|x l IHl]; constructor; [apply IH | exact IHl].
Qed.

(** Reference equality of symbols, as a boolean test. *)
Fixpoint Symbol_eqb (a b : Symbol) : bool :=
  match a, b with
  | mkSymbol i n t r ch, mkSymbol i' n' t' r' ch' =>
      bool_decide (i = i') && bool_decide (n = n') && bool_decide (t = t')
      && bool_decide (r = r')
      && (fix go (l l' : list Symbol) : bool :=
            match l, l' with
            | [], [] => true
            | x :: l, y :: l' => Symbol_eqb x y && go l l'
            | _, _ => false
            end) ch ch'
  end.

Lemma Symbol_eqb_eq (a b : Symbol) : Symbol_eqb a b = true <-> a = b.
Proof.
  revert b. induction a as [i n t r ch IH] using Symbol_ind.
  intros [i' n' t' r' ch']. cbn [Symbol_eqb].
  rewrite !andb_true_iff, !bool_decide_eq_true.
  set (go := fix go (l l' : list Symbol) : bool :=
            match l, l' with
            | [], [] => true
            | x :: l, y :: l' => Symbol_eqb x y && go l l'
            | _, _ => false
            end).
  assert (Hgo : forall l', go ch l' = true <-> ch = l').
  { induction IH as [|x l Hx _ IHl]; intros [|y l']; cbn; try (split; congruence).
    rewrite andb_true_iff, Hx, IHl. split; [intros [-> ->]; reflexivity|].
    intros E; injection E; auto. }
  rewrite Hgo. split.
  - intros [[[[-> ->] ->] ->] ->]. reflexivity.
  - intros E; injection E; auto.
Qed.

#[global] Instance Symbol_eq_dec : EqDecision Symbol.
Proof.
  intros a b. destruct (Symbol_eqb a b) eqn:E.
  - left. apply Symbol_eqb_eq, E.
  - right. intros H. apply Symbol_eqb_eq in H. congruence.
Defined.

(** Symbols are keys of the [DefaultMap] of the instances view. *)
Definition Symbol_label : Type := positive * string * string * option string.

Fixpoint Symbol_to_tree (s : Symbol) : gen_tree Symbol_label :=
  match s with
  | mkSymbol i n t r ch =>
      GenNode 0 (GenLeaf (i, n, t, r) :: List.map Symbol_to_tree ch)
  end.

Definition sequence_opt {A : Type} (l : list (option A)) : option (list A) :=
  foldr (fun o acc =>
           match o, acc with
           | Some x, Some xs => Some (x :: xs)
           | _, _ => None
           end) (Some []) l.

Fixpoint tree_to_Symbol (t : gen_tree Symbol_label) : option Symbol :=
  match t with
  | GenNode 0 (GenLeaf (i, n, ty, r) :: ts) =>
      match sequence_opt (List.map tree_to_Symbol ts) with
      | Some ch => Some (mkSymbol i n ty r ch)
      | None => None
      end
  | _ => None
  end.

Lemma tree_to_Symbol_to_tree (s : Symbol) :
  tree_to_Symbol (Symbol_to_tree s) = Some s.
Proof.
  induction s as [i n t r ch IH] using Symbol_ind. cbn.
  assert (E : sequence_opt (List.map tree_to_Symbol (List.map Symbol_to_tree ch))
              = Some ch).
  { induction IH as [|x l Hx _ IHl]; cbn; [reflexivity|].
    rewrite Hx. unfold sequence_opt in IHl. rewrite IHl. reflexivity. }
  rewrite E. reflexivity.
Qed.

#[global] Instance Symbol_countable : Countable Symbol :=
  inj_countable Symbol_to_tree tree_to_Symbol tree_to_Symbol_to_tree.

(** ** The scope tree (sidebar/ProjectComponent) *)

Module ProjectComponent.

(** The classes of the scope tree; [RootItem] and [InternalScopeItem]
    extend [ModuleItem], [ModuleItem] and [LogicItem] extend [ScopeItem]. *)
Inductive ItemClass : Type :=
  | CScope | CModule | CLogic | CRoot | CInternalScope.

#[global] Instance ItemClass_eq_dec : EqDecision ItemClass.
Proof. solve_decision. Defined.

(** [class ScopeItem]: the fields [definition], [instance] and [parent],
    and the class the object was constructed with. *)
Unset Elimination Schemes.
Inductive ScopeItem : Type :=
  mkScopeItem {
    cls : ItemClass;
    parent : option ScopeItem;
    instance : Symbol;
    definition : option Symbol
  }.
Set Elimination Schemes.

(** [new ModuleItem(parent, instance, definition)] *)
Definition ModuleItem (parent : option ScopeItem) (instance : Symbol)
    (definition : option Symbol) : ScopeItem :=
  mkScopeItem CModule parent instance definition.

(** [new LogicItem(parent, instance)] is [super(parent, instance, instance)]. *)
Definition LogicItem (parent : option ScopeItem) (instance : Symbol) : ScopeItem :=
  mkScopeItem CLogic parent instance (Some instance).

(** [new RootItem(instance)] is [super(undefined, instance, instance)]. *)
Definition RootItem (instance : Symbol) : ScopeItem :=
  mkScopeItem CRoot None instance (Some instance).

(** [new InternalScopeItem(parent, scope)] is [super(parent, scope, scope)]. *)
Definition InternalScopeItem (parent : option ScopeItem) (scope : Symbol) : ScopeItem :=
  mkScopeItem CInternalScope parent scope (Some scope).

(** The names of the symbols from the root down to a node. *)
Fixpoint pathNames (this : ScopeItem) : list string :=
  match this with
  | mkScopeItem _ None i _ => [name i]
  | mkScopeItem _ (Some p) i _ => pathNames p ++ [name i]
  end.

(** [ScopeItem.getPath] *)
Fixpoint getPath (this : ScopeItem) : string :=
  match this with
  | mkScopeItem _ None i _ => name i
  | mkScopeItem _ (Some p) i _ => getPath p +:+ "." +:+ name i
  end.

Definition EXCLUDED_SYMS : gset string :=
  {[ "enum"; "typedef"; "assert"; "function" ]}.

(** The test of the filters, [!EXCLUDED_SYMS.has(child.type)]. *)
Definition kept (child : Symbol) : Prop := type child ∉ EXCLUDED_SYMS.

#[global] Instance kept_dec (child : Symbol) : Decision (kept child).
Proof. unfold kept. apply _. Defined.

(** [ScopeItem.hasChildren] *)
Definition hasChildren (this : ScopeItem) : bool :=
  match definition this with
  | None => false
  | Some d =>
      bool_decide
        (0 < length (filter kept (children d)))
  end.

Section Resolver.

(** [ext.index.findModuleSymbol], the workspace lookup of a module by
    name; [undefined] is [None].  The symbol table does not change
    during a pass, so an awaited lookup is a call of this function. *)
Variable findModuleSymbol : string -> option Symbol.

(** The callback of [.map] in [ModuleItem.getChildren].  The lookup of
    [def] among the siblings is computed and dropped by the source. *)
Definition childItem (this : ScopeItem) (childSyms : list Symbol)
    (child : Symbol) : ScopeItem :=
  if decide (type child = "block") then InternalScopeItem (Some this) child
  else if decide (type child = "instance") then
    let def := findModuleSymbol (default EmptyString (typeRef child)) in
    ModuleItem (Some this) child def
  else
    let def :=
      match typeRef child with
      | Some r => List.find (fun sym => bool_decide (name sym = r)) childSyms
      | None => None
      end in
    LogicItem (Some this) child.

(** [ModuleItem.getChildren] *)
Definition ModuleItem_getChildren (this : ScopeItem) : list ScopeItem :=
  match definition this with
  | None => []
  | Some d =>
      if decide (length (children d) = 0) then []
      else
        let childSyms := children d in
        childItem this childSyms
          <$> filter kept childSyms
  end.

(** The classes whose [getChildren] is [ModuleItem.getChildren]. *)
Definition expands (this : ScopeItem) : bool :=
  match cls this with
  | CModule | CRoot | CInternalScope => true
  | CScope | CLogic => false
  end.

(** [getChildren], dispatched on the class: [ScopeItem.getChildren]
    (inherited by [LogicItem]) returns the empty array. *)
Definition getChildren (this : ScopeItem) : list ScopeItem :=
  match cls this with
  | CModule | CRoot | CInternalScope => ModuleItem_getChildren this
  | CScope | CLogic => []
  end.

(** How a node [item] stands for a child symbol, by kind of the child;
    [leafDefinition] is the definition given to the node of a child that
    is neither a block nor an instance. *)
Definition by_kind (leafDefinition : Symbol -> option Symbol)
    (this : ScopeItem) (child : Symbol) (item : ScopeItem) : Prop :=
  parent item = Some this /\ instance item = child
  /\ (type child = "block" ->
      cls item = CInternalScope /\ definition item = Some child)
  /\ (type child = "instance" ->
      cls item = CModule
      /\ definition item = findModuleSymbol (default EmptyString (typeRef child)))
  /\ (type child <> "block" -> type child <> "instance" ->
      cls item = CLogic /\ definition item = leafDefinition child).

(** [ProjectComponent.getChildren(element?)], the method of the tree
    data provider; [top] is the field [this.top]. *)
Definition view_getChildren (top : option Symbol) (element : option ScopeItem)
    : list ScopeItem :=
  match element with
  | None =>
      match top with
      | None => []
      | Some t => [RootItem t]
      end
  | Some e => getChildren e
  end.

(** *** [setInstance]: the lookup of a hierarchical path *)

Definition is_digit (c : ascii) : bool :=
  let n := nat_of_ascii c in (48 <=? n)%nat && (n <=? 57)%nat.

(** The rest of [s] after the longest run of digits ([\d+] is greedy,
    and what follows it in the pattern is not a digit). *)
Fixpoint after_digits (s : string) : string :=
  match s with
  | String c r => if is_digit c then after_digits r else s
  | EmptyString => EmptyString
  end.

(** One attempt of [/\[\d+\]/] at the start of [s]: the length of the
    match. *)
Definition regex_exec (s : string) : option nat :=
  match s with
  | String "["%char (String d r) =>
      if is_digit d then
        match after_digits r with
        | String "]"%char rest => Some (String.length s - String.length rest)
        | _ => None
        end
      else None
  | _ => None
  end.

(** [s.replace(/\[\d+\]/g, '')]: one scan from the left; a match is
    dropped and the scan goes on after it, otherwise the character is
    kept.  [skip] counts the characters of the current match that are
    still to be dropped. *)
Fixpoint replace_from (skip : nat) (s : string) : string :=
  match s with
  | EmptyString => EmptyString
  | String c r =>
      match skip with
      | S k => replace_from k r
      | O =>
          match regex_exec s with
          | Some n => replace_from (pred n) r
          | None => String c (replace_from 0 r)
          end
      end
  end.

Definition replace_regex (instance : string) : string := replace_from 0 instance.

(** [s.split('.')]; the result is never empty: [''.split('.')] is
    [['']]. *)
Fixpoint split (s : string) : list string :=
  match s with
  | EmptyString => [EmptyString]
  | String c r =>
      if decide (c = "."%char) then EmptyString :: split r
      else
        match split r with
        | h :: t => String c h :: t
        | [] => [String c EmptyString]
        end
  end.

(** What a run of the command does: it returns at once, shows an error
    message and returns, or reveals the item it found. *)
Inductive Outcome : Type :=
  | Returned
  | ErrorMessage (msg : string)
  | Revealed (current : ScopeItem).

(** The template literal of the error message. *)
Definition notFoundMessage (part : string) (current : option ScopeItem) : string :=
  "Could not find instance " +:+ part +:+ " in "
  +:+ match current with
      | Some c => name (instance c)
      | None => "top level"
      end.

(** The [for (let part of parts)] loop; [inl] is the early return after
    the error message, [inr] the value of [current] after the loop. *)
Fixpoint walk (top : option Symbol) (current : option ScopeItem)
    (parts : list string) : string + option ScopeItem :=
  match parts with
  | [] => inr current
  | part :: parts' =>
      let children := view_getChildren top current in
      match List.find (fun child => bool_decide (name (instance child) = part))
              children with
      | None => inl (notFoundMessage part current)
      | Some child => walk top (Some child) parts'
      end
  end.

(** The body of [setInstance] for a string argument.  With no top the
    selection of a top level is started but not awaited, so [this.top]
    is still undefined at the second test and the command returns. *)
Definition setInstance (top : option Symbol) (instance : string) : Outcome :=
  match top with
  | None => Returned
  | Some _ =>
      let cleaned := replace_regex instance in
      let parts := split cleaned in
      match walk top None parts with
      | inl msg => ErrorMessage msg
      | inr None => Returned
      | inr (Some current) => Revealed current
      end
  end.

(** The node a path resolves to, if any. *)
Definition resolvePath (top : Symbol) (path : string) : option ScopeItem :=
  match setInstance (Some top) path with
  | Revealed current => Some current
  | _ => None
  end.

(** *** The traversal of the whole hierarchy *)

(** Modelled from the spec: [preOrderTraversal] is a method of the
    hierarchy items declared in a revision of ProjectComponent that is
    not among the sources.  Section 4.3, steps 3 and 6: visit the node,
    then expand it and visit each child, depth first, left to right; a
    node whose definition is already on the current path of definitions
    is visited but not expanded.  [path] holds the definitions of the
    ancestors; the result is the sequence of the visited nodes, [None]
    when [fuel] levels of recursion do not suffice. *)
Fixpoint preOrder (fuel : nat) (path : list Symbol) (item : ScopeItem)
    : option (list ScopeItem) :=
  match fuel with
  | O => None
  | S fuel' =>
      match definition item with
      | None => Some [item]
      | Some d =>
          if decide (d ∈ path) then Some [item]
          else
            subs ← mapM (preOrder fuel' (d :: path)) (getChildren item);
            Some (item :: concat subs)
      end
  end.

(** [item.preOrderTraversal(fn)], with the state the callback updates. *)
Definition preOrderTraversal {S : Type} (fuel : nat) (item : ScopeItem)
    (fn : S -> ScopeItem -> S) (st : S) : option S :=
  visited ← preOrder fuel [] item;
  Some (foldl fn st visited).

End Resolver.

End ProjectComponent.

(** ** The reverse index (sidebar/InstancesView) *)

Module InstancesView.

(** [class InstanceViewItem]; [parent] is the [ModuleItem] that holds
    the item, named by its definition. *)
Record InstanceViewItem : Type :=
  mkInstanceViewItem {
    parent : Symbol;
    inst : ProjectComponent.ScopeItem
  }.

(** [class ModuleItem] of the instances view. *)
Record ModuleItem : Type :=
  mkModuleItem {
    definition : Symbol;
    instances : gmap string InstanceViewItem
  }.

(** [new ModuleItem(sym)], the default of the [DefaultMap]. *)
Definition newModuleItem (sym : Symbol) : ModuleItem := mkModuleItem sym ∅.

(** [ModuleItem.addInstance] *)
Definition addInstance (this : ModuleItem) (item : ProjectComponent.ScopeItem)
    : ModuleItem :=
  mkModuleItem (definition this)
    (<[ProjectComponent.getPath item := mkInstanceViewItem (definition this) item]>
       (instances this)).

(** Modelled from the spec: [InstanceItem] is a class of the revision of
    ProjectComponent that is not among the sources; section 4.3, step 4
    records the visited nodes whose kind is Module. *)
Definition isInstanceItem (item : ProjectComponent.ScopeItem) : bool :=
  bool_decide (ProjectComponent.cls item = ProjectComponent.CModule).

(** The variables the callback of [indexTop] updates: [this.modules],
    [pct], [lastReport], and the increments handed to
    [progress.report], oldest first.  [pct] is a JavaScript number; the
    embedding computes it in exact rational arithmetic. *)
Record IndexState : Type :=
  mkIndexState {
    modules : gmap Symbol ModuleItem;
    pct : Q;
    lastReport : Z;
    reports : list Z
  }.

(** Modelled from the spec: [DefaultMap] is declared in utils, which is
    not among the sources.  Section 4.3, step 4 files a node under
    index[definition][path] whether or not the definition was met
    before: [get] on a key that is not present stores and returns what
    the factory, [new ModuleItem(sym)], makes for it. *)
Definition DefaultMap_get (ms : gmap Symbol ModuleItem) (sym : Symbol)
    : ModuleItem * gmap Symbol ModuleItem :=
  match ms !! sym with
  | Some m => (m, ms)
  | None => (newModuleItem sym, <[sym := newModuleItem sym]> ms)
  end.

(** The callback passed to [preOrderTraversal].  [addInstance] updates
    the [ModuleItem] held by the map. *)
Definition visit (st : IndexState) (item : ProjectComponent.ScopeItem) : IndexState :=
  if isInstanceItem item then
    match ProjectComponent.definition item with
    | Some d =>
        let got := DefaultMap_get (modules st) d in
        let modules' := <[d := addInstance got.1 item]> got.2 in
        let pct' := (pct st + (95 - pct st) * (1 # 1000))%Q in
        let fl := Qfloor pct' in
        if (lastReport st <? fl)%Z then
          mkIndexState modules' pct' fl (reports st ++ [(fl - lastReport st)%Z])
        else
          mkIndexState modules' pct' (lastReport st) (reports st)
    | None => st
    end
  else st.

(** The state after [this.modules.clear()] and the first report. *)
Definition startState : IndexState := mkIndexState ∅ 0 0 [0%Z].

(** [progress.report({ increment: 100, message: 'Done' })] *)
Definition finish (st : IndexState) : IndexState :=
  mkIndexState (modules st) (pct st) (lastReport st) (reports st ++ [100%Z]).

(** The pass of [indexTop] over an already known sequence of visits. *)
Definition indexVisited (visited : list ProjectComponent.ScopeItem) : IndexState :=
  finish (foldl visit startState visited).

(** [indexTop(top)] *)
Definition indexTop (findModuleSymbol : string -> option Symbol) (fuel : nat)
    (top : ProjectComponent.ScopeItem) : option IndexState :=
  finish
    <$> ProjectComponent.preOrderTraversal findModuleSymbol fuel top visit startState.

(** The running totals of the reported increments. *)
Fixpoint cumulative (acc : Z) (increments : list Z) : list Z :=
  match increments with
  | [] => []
  | i :: rest => (acc + i)%Z :: cumulative (acc + i)%Z rest
  end.

(** Modelled from the spec: the progress sink of section 4.3, step 5 is
    external to the sources ([vscode.Progress]).  It shows the sum of
    the increments handed to it, and the sum stops at 100: increments
    are summed up until 100% is reached.  [shown acc increments] are the
    values shown after each report, starting from [acc]. *)
Fixpoint shown (acc : Z) (increments : list Z) : list Z :=
  match increments with
  | [] => []
  | i :: rest => Z.min 100 (acc + i) :: shown (Z.min 100 (acc + i)) rest
  end.

(** [revealPath]'s lookup: the instance recorded for a definition under
    a path. *)
Definition lookupInstance (ms : gmap Symbol ModuleItem) (module : Symbol)
    (path : string) : option ProjectComponent.ScopeItem :=
  m ← ms !! module; inst <$> instances m !! path.

(** The visits that [visit] files under [module] and [path]. *)
Definition recorded_under (module : Symbol) (path : string)
    (item : ProjectComponent.ScopeItem) : Prop :=
  isInstanceItem item = true
  /\ ProjectComponent.definition item = Some module
  /\ ProjectComponent.getPath item = path.

#[global] Instance recorded_under_dec module path item :
  Decision (recorded_under module path item).
Proof. unfold recorded_under. apply _. Defined.

End InstancesView.

(** ** The tree items of the project view (sidebar/ProjectComponent) *)

Module ProjectTree.

(** [vscode.TreeItemCollapsibleState] *)
Inductive TreeItemCollapsibleState : Type :=
  | StateNone | Collapsed | Expanded.

(** The fields of [vscode.TreeItem] that the scope items set; a new
    item is not collapsible and has no context value. *)
Record TreeItem : Type :=
  mkTreeItem {
    label : string;
    collapsibleState : TreeItemCollapsibleState;
    iconPath : string;
    contextValue : option string
  }.

Section Icons.

(** [Symbol.getIcon], of the symbol table. *)
Variable symbolIcon : Symbol -> string.

(** [getIcon]: [ModuleItem] answers ['chip'], [InternalScopeItem]
    ['bracket'], the other classes ask the symbol. *)
Definition getIcon (this : ProjectComponent.ScopeItem) : string :=
  match ProjectComponent.cls this with
  | ProjectComponent.CInternalScope => "bracket"
  | ProjectComponent.CModule | ProjectComponent.CRoot => "chip"
  | ProjectComponent.CScope | ProjectComponent.CLogic =>
      symbolIcon (ProjectComponent.instance this)
  end.

(** [ScopeItem.getTreeItem] *)
Definition ScopeItem_getTreeItem (this : ProjectComponent.ScopeItem) : TreeItem :=
  let i := ProjectComponent.instance this in
  mkTreeItem
    (name i +:+ " : " +:+ default (type i) (typeRef i))
    (if ProjectComponent.hasChildren this then Collapsed else StateNone)
    (getIcon this)
    None.

(** [ModuleItem.getTreeItem] *)
Definition ModuleItem_getTreeItem (this : ProjectComponent.ScopeItem) : TreeItem :=
  let item := ScopeItem_getTreeItem this in
  match ProjectComponent.definition this with
  | Some _ =>
      mkTreeItem (label item) (collapsibleState item) (iconPath item) (Some "File")
  | None => item
  end.

(** [RootItem.getTreeItem] *)
Definition RootItem_getTreeItem (this : ProjectComponent.ScopeItem) : TreeItem :=
  let treeItem := ModuleItem_getTreeItem this in
  mkTreeItem (label treeItem) Expanded (iconPath treeItem) (contextValue treeItem).

(** [ProjectComponent.getTreeItem(element)], dispatched on the class. *)
Definition getTreeItem (element : ProjectComponent.ScopeItem) : TreeItem :=
  match ProjectComponent.cls element with
  | ProjectComponent.CRoot => RootItem_getTreeItem element
  | ProjectComponent.CModule | ProjectComponent.CInternalScope =>
      ModuleItem_getTreeItem element
  | ProjectComponent.CScope | ProjectComponent.CLogic =>
      ScopeItem_getTreeItem element
  end.

End Icons.

(** [ProjectComponent.getParent(element)] *)
Definition getParent (element : ProjectComponent.ScopeItem)
    : option ProjectComponent.ScopeItem :=
  ProjectComponent.parent element.

End ProjectTree.

(** ** The tree of the instances view (sidebar/InstancesView) *)

Module InstancesTree.

(** [type InstanceTreeItem = InstanceViewItem | ModuleItem] *)
Inductive InstanceTreeItem : Type :=
  | ViewModule (m : InstancesView.ModuleItem)
  | ViewInstance (v : InstancesView.InstanceViewItem).

(** [InstancesView.getParent]: the field [parent] of an instance item is
    the [ModuleItem] object that the map holds for its definition. *)
Definition getParent (ms : gmap Symbol InstancesView.ModuleItem)
    (element : InstanceTreeItem) : option InstancesView.ModuleItem :=
  match element with
  | ViewModule _ => None
  | ViewInstance v => ms !! InstancesView.parent v
  end.

(** [InstanceViewItem.getTreeItem]: the label, which is also the tooltip
    and what the button Copy Path copies. *)
Definition instanceLabel (v : InstancesView.InstanceViewItem) : string :=
  ProjectComponent.getPath (InstancesView.inst v).

(** [revealPath]: the map after the call and the item that is revealed,
    if any. *)
Definition revealPath (ms : gmap Symbol InstancesView.ModuleItem)
    (module : Symbol) (path : string)
    : gmap Symbol InstancesView.ModuleItem * option InstancesView.InstanceViewItem :=
  let got := InstancesView.DefaultMap_get ms module in
  (got.2, InstancesView.instances got.1 !! path).

End InstancesTree.

(** ** The include paths and the diagnostics of a linter (linter/BaseLinter) *)

Module BaseLinter.

(** The entry of the setting that stands for the includes of the
    extension. *)
Definition marker : string := "${includes}".

(** [computeIncludes]: [includes] is the setting of the linter, [ext]
    the includes of the extension; the result is [includeComputed].
    [forEach] runs over the array of the setting while the field is
    replaced. *)
Definition computeIncludes (includes ext : list string) : list string :=
  let includeComputed :=
    foldl (fun acc inc =>
             if decide (inc = marker)
             then filter (fun i => i <> marker) acc ++ ext
             else acc)
      includes includes in
  if decide (length includeComputed = 0) then ext else includeComputed.

(** The replacement of [wslAdjust], [path.replace(/\\/g, '/')]. *)
Fixpoint replaceBackslashes (path : string) : string :=
  match path with
  | EmptyString => EmptyString
  | String c r =>
      String (if decide (c = "\"%char) then "/"%char else c) (replaceBackslashes r)
  end.

(** [wslAdjust]; [isWindows] is the constant of the module, [useWsl]
    the cached setting, [getWslPath] the function of utils. *)
Definition wslAdjust (isWindows useWsl : bool) (getWslPath : string -> string)
    (path : string) : string :=
  if isWindows then
    if useWsl then getWslPath path else replaceBackslashes path
  else path.

Section Lint.

(** [FileDiagnostic], of utils: a diagnostic with the [file] it is for. *)
Variable FileDiagnostic : Type.
Variable file : FileDiagnostic -> string.

(** One turn of the loop that fills [fmap], a [Map] in the order of
    insertion. *)
Fixpoint fmap_push (fmap : list (string * list FileDiagnostic))
    (diag : FileDiagnostic) : list (string * list FileDiagnostic) :=
  match fmap with
  | [] => [(file diag, [diag])]
  | (f, ds) :: rest =>
      if decide (f = file diag) then (f, ds ++ [diag]) :: rest
      else (f, ds) :: fmap_push rest diag
  end.

(** [vscode.Uri.joinPath(wsUri, file)], as the string of the uri. *)
Variable joinPath : string -> string.

(** The branch of [lint] for a project with a top: the collection is
    cleared and every file of [fmap] gets its diagnostics. *)
Definition lintProject (diags : list FileDiagnostic)
    : gmap string (list FileDiagnostic) :=
  foldl (fun c entry => <[joinPath entry.1 := entry.2]> c) ∅
    (foldl fmap_push [] diags).

End Lint.

End BaseLinter.


Import InstancesView.
Import ProjectComponent.

(** ** Notions used in the statements *)

(** Whether the pattern matches somewhere in [s]. *)
Fixpoint has_match (s : string) : bool :=
  match s with
  | EmptyString => false
  | String _ r =>
      match regex_exec s with
      | Some _ => true
      | None => has_match r
      end
  end.

(** Whether the character [c] occurs in [s]. *)
Fixpoint contains (c : ascii) (s : string) : bool :=
  match s with
  | EmptyString => false
  | String x r => if decide (x = c) then true else contains c r
  end.

(** Whether [s] is made of decimal digits. *)
Fixpoint all_digits (s : string) : bool :=
  match s with
  | EmptyString => true
  | String x r => is_digit x && all_digits r
  end.

(** In the words of the specification: [s] holds a bracketed numeric
    suffix, that is an opening bracket, one decimal digit or more, and a
    closing bracket. *)
Definition holds_suffix (s : string) : Prop :=
  exists before digits after,
    all_digits digits = true /\ digits <> EmptyString
    /\ s = before +:+ String "[" (digits +:+ String "]" after).

(** A path as it is written, in the words of the specification: plain
    text in which bracketed numeric suffixes stand. *)
Inductive Piece : Type :=
  | Plain (text : string)
  | Suffix (digits : string).

(** The plain text holds no opening bracket; the suffix is a number of
    at least one decimal digit. *)
Definition well_written (p : Piece) : Prop :=
  match p with
  | Plain text => contains "[" text = false
  | Suffix digits => all_digits digits = true /\ digits <> EmptyString
  end.

(** The path as written, every suffix between brackets. *)
Fixpoint written (pieces : list Piece) : string :=
  match pieces with
  | [] => EmptyString
  | Plain text :: rest => text +:+ written rest
  | Suffix digits :: rest => String "[" (digits +:+ String "]" (written rest))
  end.

(** The same path with the suffixes removed. *)
Fixpoint suffixes_removed (pieces : list Piece) : string :=
  match pieces with
  | [] => EmptyString
  | Plain text :: rest => text +:+ suffixes_removed rest
  | Suffix _ :: rest => suffixes_removed rest
  end.

(** The nodes that a walk can end at: the root, and at every level the
    first child that bears its name. *)
Inductive addressable (findModuleSymbol : string -> option Symbol)
    (top : Symbol) : ScopeItem -> Prop :=
  | addressable_root : addressable findModuleSymbol top (RootItem top)
  | addressable_child (p n : ScopeItem) :
      addressable findModuleSymbol top p ->
      List.find (fun c => bool_decide (name (instance c) = name (instance n)))
        (getChildren findModuleSymbol p) = Some n ->
      addressable findModuleSymbol top n.

(** The visits that change the index: instances with a definition. *)
Definition counted (item : ScopeItem) : Prop :=
  isInstanceItem item = true /\ is_Some (ProjectComponent.definition item).

#[global] Instance counted_dec (item : ScopeItem) : Decision (counted item).
Proof. unfold counted. apply _. Defined.

(** Powers of a fraction. *)
Fixpoint Qpow (q : Q) (n : nat) : Q :=
  match n with
  | O => 1
  | S n' => q * Qpow q n'
  end.

(** The sum of the increments. *)
Definition Zsum (l : list Z) : Z := foldr Z.add 0%Z l.

(** What holds of every entry of the map while it is built. *)
Definition index_ok (visited : list ScopeItem) (ms : gmap Symbol InstancesView.ModuleItem) : Prop :=
  forall d m, ms !! d = Some m ->
    InstancesView.definition m = d
    /\ instances m <> ∅
    /\ forall p v, instances m !! p = Some v ->
         InstancesView.parent v = d
         /\ getPath (inst v) = p
         /\ cls (inst v) = CModule
         /\ ProjectComponent.definition (inst v) = Some d
         /\ inst v ∈ visited.

(** [lastReport] is the floor of [pct], and the increments after the
    first report are positive and add up to it. *)
Record floor_ok (st : IndexState) : Prop :=
  mk_floor_ok {
    floor_lower : (0 <= pct st)%Q;
    floor_upper : (pct st < 95)%Q;
    floor_last : lastReport st = Qfloor (pct st);
    floor_reports :
      exists incs, reports st = 0%Z :: incs
                   /\ Forall (Z.le 1) incs /\ Zsum incs = lastReport st
  }.

(** The key an instance is recorded under. *)
Definition indexKey (item : ScopeItem) : option Symbol * string :=
  (ProjectComponent.definition item, getPath item).

(** The value of the field [includeComputed] after [j] markers of the
    setting [includes] have been met. *)
Definition includesAfter (includes ext : list string) (j : nat) : list string :=
  match j with
  | O => includes
  | S _ =>
      filter (fun i => i <> BaseLinter.marker) includes ++ concat (replicate j ext)
  end.

(** The diagnostics that the map [fmap] of [lint] holds for a file. *)
Fixpoint fmap_get {FileDiagnostic : Type}
    (fmap : list (string * list FileDiagnostic)) (f : string)
    : list FileDiagnostic :=
  match fmap with
  | [] => []
  | (g, ds) :: rest => if decide (g = f) then ds else fmap_get rest f
  end.

(** One update of [pct], the fraction kept in lowest terms. *)
Definition advance (q : Q) : Q := Qred (q + (95 - q) * (1 # 1000)).

(** [lastReport] and the reports after [n] recorded visits that start
    with [pct] equal to [q]. *)
Fixpoint reduced_run (n : nat) (q : Q) (l : Z) (r : list Z) : Z * list Z :=
  match n with
  | O => (l, r)
  | S n' =>
      let fl := Qfloor (advance q) in
      if (l <? fl)%Z then reduced_run n' (advance q) fl (r ++ [(fl - l)%Z])
      else reduced_run n' (advance q) l r
  end.

(** The nesting depth of a symbol. *)
Fixpoint height (s : Symbol) : nat :=
  match s with
  | mkSymbol _ _ _ _ ch =>
      S ((fix heights (l : list Symbol) : nat :=
            match l with
            | [] => 0
            | c :: l' => Nat.max (height c) (heights l')
            end) ch)
  end.

(** The modules of the workspace that are not yet on the path. *)
Definition unvisited (W path : list Symbol) : nat :=
  length (filter (fun m => m ∉ path) (remove_dups W)).

(** Levels of recursion that suffice for the traversal from [top] in a
    workspace [W]. *)
Definition enoughFuel (W : list Symbol) (top : Symbol) : nat :=
  S (length W * S (max_list (height <$> top :: W))
     + max_list (height <$> top :: W)).

Section Reachability.

Variable findModuleSymbol : string -> option Symbol.

(** A definition encloses its blocks and instantiates the modules its
    instances resolve to. *)
Definition encloses (d b : Symbol) : Prop :=
  b ∈ children d /\ type b = "block".

Definition instantiates (d m : Symbol) : Prop :=
  exists c, c ∈ children d /\ type c = "instance"
            /\ findModuleSymbol (default EmptyString (typeRef c)) = Some m.

(** [reaches_instance m d]: below a node with definition [d], through
    blocks and instances, there is an instance of [m]. *)
Inductive reaches_instance (m : Symbol) : Symbol -> Prop :=
  | reaches_here (d : Symbol) :
      instantiates d m -> reaches_instance m d
  | reaches_block (d b : Symbol) :
      encloses d b -> reaches_instance m b -> reaches_instance m d
  | reaches_module (d e : Symbol) :
      instantiates d e -> reaches_instance m e -> reaches_instance m d.

(** The same, with the definitions passed on the way. *)
Fixpoint is_chain (m d : Symbol) (chain : list Symbol) : Prop :=
  match chain with
  | [] => instantiates d m
  | e :: rest => (encloses d e \/ instantiates d e) /\ is_chain m e rest
  end.

End Reachability.

(** What is left to traverse below a node: a bound on the depth. *)
Definition rank (W : list Symbol) (H : nat) (path : list Symbol)
    (item : ScopeItem) : nat :=
  match ProjectComponent.definition item with
  | None => 0
  | Some d =>
      if decide (d ∈ path) then 0
      else unvisited W (d :: path) * S H + height d
  end.

(** ** Sample designs

    [Top] holds an instance [u1] of [Leaf] and a block [blk] with a
    second instance [u2]; [Soc] holds a port, a struct with two members
    and an instance of a module no file declares; [Ring] instantiates
    itself.  The numbers stand for the identities of the objects. *)

Definition sLeaf : Symbol := mkSymbol 10 "Leaf" "module" None [].
Definition su1 : Symbol := mkSymbol 2 "u1" "instance" (Some "Leaf") [].
Definition su2 : Symbol := mkSymbol 4 "u2" "instance" (Some "Leaf") [].
Definition sblk : Symbol := mkSymbol 3 "blk" "block" None [su2].
Definition sTop : Symbol := mkSymbol 1 "Top" "module" None [su1; sblk].

Definition sclk : Symbol := mkSymbol 21 "clk" "port" (Some "logic") [].
Definition shdr : Symbol := mkSymbol 23 "hdr" "member" (Some "logic") [].
Definition scrc : Symbol := mkSymbol 24 "crc" "member" (Some "logic") [].
Definition spkt : Symbol := mkSymbol 22 "pkt" "struct" None [shdr; scrc].
Definition sfn : Symbol := mkSymbol 25 "parity" "function" None [].
Definition sghost : Symbol := mkSymbol 26 "g0" "instance" (Some "Ghost") [].
Definition sSoc : Symbol :=
  mkSymbol 20 "Soc" "module" None [sclk; sfn; spkt; sghost].

Definition sself : Symbol := mkSymbol 31 "r" "instance" (Some "Ring") [].
Definition sRing : Symbol := mkSymbol 30 "Ring" "module" None [sself].

(** [Ping] holds, in a block, an instance of [Pong], which holds an
    instance of [Ping]. *)
Definition spong : Symbol := mkSymbol 72 "q" "instance" (Some "Pong") [].
Definition sgen : Symbol := mkSymbol 71 "gen" "block" None [spong].
Definition sPing : Symbol := mkSymbol 70 "Ping" "module" None [sgen].
Definition sping : Symbol := mkSymbol 81 "p" "instance" (Some "Ping") [].
Definition sPong : Symbol := mkSymbol 80 "Pong" "module" None [sping].

Definition mkLeafInstance (i : positive) (n : string) : Symbol :=
  mkSymbol i n "instance" (Some "Leaf") [].

(** [Dup] declares the instance name [u] twice. *)
Definition sDup : Symbol :=
  mkSymbol 40 "Dup" "module" None [mkLeafInstance 41 "u"; mkLeafInstance 42 "u"].

(** [Wide] holds eleven instances of [Leaf]. *)
Definition sWide : Symbol :=
  mkSymbol 50 "Wide" "module" None
    [mkLeafInstance 51 "u0"; mkLeafInstance 52 "u1"; mkLeafInstance 53 "u2";
     mkLeafInstance 54 "u3"; mkLeafInstance 55 "u4"; mkLeafInstance 56 "u5";
     mkLeafInstance 57 "u6"; mkLeafInstance 58 "u7"; mkLeafInstance 59 "u8";
     mkLeafInstance 60 "u9"; mkLeafInstance 61 "u10"].

(** Modelled from the spec: the workspace lookup itself is not among the
    sources; section 4.1 has it return the first module of that name, or
    nothing.  Used for the sample designs only. *)
Definition lookupModule (workspace : list Symbol) (n : string) : option Symbol :=
  List.find (fun s => bool_decide (name s = n)) workspace.

Definition sampleWorkspace : list Symbol :=
  [sTop; sLeaf; sSoc; sRing; sPing; sPong].

Definition sampleIndex : string -> option Symbol := lookupModule sampleWorkspace.

(** A top whose name holds a dot. *)
Definition sDotted : Symbol := mkSymbol 70 "lib.Top" "module" None [].

(** A sample of [vscode.Uri.joinPath] for the workspace [/ws]: like the
    function of the editor it drops a leading [./], so it maps two
    spellings of a file to one uri. *)
Definition joinWorkspace (file : string) : string :=
  "/ws/" +:+ match file with
             | String "." (String "/" rest) => rest
             | _ => file
             end.

(** Nodes of the sample designs. *)

Definition socRoot : ScopeItem := RootItem sSoc.
Definition pktNode : ScopeItem := LogicItem (Some socRoot) spkt.
Definition ghostNode : ScopeItem := ModuleItem (Some socRoot) sghost None.

Definition dupRoot : ScopeItem := RootItem sDup.
Definition dupFirst : ScopeItem :=
  ProjectComponent.ModuleItem (Some dupRoot) (mkLeafInstance 41 "u") (Some sLeaf).
Definition dupSecond : ScopeItem :=
  ProjectComponent.ModuleItem (Some dupRoot) (mkLeafInstance 42 "u") (Some sLeaf).

Definition wideRoot : ScopeItem := RootItem sWide.

Definition topBlk : ScopeItem := InternalScopeItem (Some (RootItem sTop)) sblk.
Definition topU2 : ScopeItem :=
  ProjectComponent.ModuleItem (Some topBlk) su2 (Some sLeaf).

Definition ringRoot : ScopeItem := RootItem sRing.
Definition ringInner : ScopeItem :=
  ProjectComponent.ModuleItem (Some ringRoot) sself (Some sRing).

Definition pingRoot : ScopeItem := RootItem sPing.
Definition pingGen : ScopeItem := InternalScopeItem (Some pingRoot) sgen.
Definition pingPong : ScopeItem :=
  ProjectComponent.ModuleItem (Some pingGen) spong (Some sPong).
Definition pingInner : ScopeItem :=
  ProjectComponent.ModuleItem (Some pingPong) sping (Some sPing).

Ltac elem_of_list_now :=
  cbn; repeat first [apply list_elem_of_here | apply list_elem_of_further].

(** ** Expansion of one level ([getChildren]) *)

Section Expand.

Variable findModuleSymbol : string -> option Symbol.

Lemma getChildren_expands (this : ScopeItem) (d : Symbol) :
  expands this = true -> definition this = Some d ->
  getChildren findModuleSymbol this
  = childItem findModuleSymbol this (children d) <$> filter kept (children d).
Proof.
  intros Hc Hd. unfold getChildren, expands in *.
  assert (E : ModuleItem_getChildren findModuleSymbol this
              = childItem findModuleSymbol this (children d)
                  <$> filter kept (children d)).
  { unfold ModuleItem_getChildren. rewrite Hd. case_decide as Hlen; [|reflexivity].
    apply nil_length_inv in Hlen. rewrite Hlen. reflexivity. }
  destruct (cls this); try discriminate; exact E.
Qed.

Lemma getChildren_no_expand (this : ScopeItem) :
  expands this = false -> getChildren findModuleSymbol this = [].
Proof. unfold getChildren, expands. destruct (cls this); congruence. Qed.

Lemma getChildren_undefined (this : ScopeItem) :
  definition this = None -> getChildren findModuleSymbol this = [].
Proof.
  intros Hd. unfold getChildren, ModuleItem_getChildren. rewrite Hd.
  destruct (cls this); reflexivity.
Qed.

Lemma instance_childItem (this : ScopeItem) (syms : list Symbol) (child : Symbol) :
  instance (childItem findModuleSymbol this syms child) = child.
Proof. unfold childItem. repeat case_decide; reflexivity. Qed.

Lemma parent_childItem (this : ScopeItem) (syms : list Symbol) (child : Symbol) :
  parent (childItem findModuleSymbol this syms child) = Some this.
Proof. unfold childItem. repeat case_decide; reflexivity. Qed.

(** Every node of an expansion stands for a kept child of the definition
    of the node that was expanded. *)
Lemma getChildren_inv (this item : ScopeItem) :
  item ∈ getChildren findModuleSymbol this ->
  exists d, expands this = true /\ definition this = Some d
    /\ instance item ∈ children d /\ kept (instance item)
    /\ item = childItem findModuleSymbol this (children d) (instance item).
Proof.
  intros Hin. destruct (expands this) eqn:Hc.
  2:{ rewrite getChildren_no_expand in Hin by done. by apply elem_of_nil in Hin. }
  destruct (definition this) as [d|] eqn:Hd.
  2:{ rewrite getChildren_undefined in Hin by done. by apply elem_of_nil in Hin. }
  rewrite (getChildren_expands this d) in Hin by done.
  apply list_elem_of_fmap in Hin as (c & -> & Hc').
  apply list_elem_of_filter in Hc' as [Hk Hc'].
  exists d. rewrite instance_childItem. done.
Qed.

(** C1, as the code has it: for a node of class ModuleItem, RootItem or
    InternalScopeItem with a definition, getChildren maps the kept
    children of the definition, one by one, by kind: a block becomes an
    InternalScopeItem whose definition is the block itself, an instance
    a ModuleItem whose definition is what findModuleSymbol returns for
    its typeRef (the empty string when there is none), so an unresolved
    instance is still there with no definition; any other kind becomes a
    LogicItem whose definition is the child symbol itself. *)
Theorem C1_expand_by_kind (this : ScopeItem) (d : Symbol) :
  expands this = true -> definition this = Some d ->
  Forall2 (by_kind findModuleSymbol Some this)
    (filter kept (children d)) (getChildren findModuleSymbol this).
Proof.
  intros Hc Hd. rewrite (getChildren_expands this d Hc Hd).
  apply Forall2_fmap_r, Forall_Forall2_diag, Forall_forall.
  intros child _. unfold compose, by_kind, childItem.
  repeat case_decide; cbn; repeat split; intros; congruence.
Qed.

(** C2, as the code has it: for a node of class ModuleItem, RootItem or
    InternalScopeItem with a definition, the symbols of the nodes that
    getChildren returns are the children of the definition whose kind is
    not excluded, each once and in the order of declaration; no node
    stands for a child of an excluded kind. *)
Theorem C2_expand_order (this : ScopeItem) (d : Symbol) :
  expands this = true -> definition this = Some d ->
  instance <$> getChildren findModuleSymbol this = filter kept (children d)
  /\ Forall (fun item => type (instance item) ∉ EXCLUDED_SYMS)
       (getChildren findModuleSymbol this).
Proof.
  intros Hc Hd.
  assert (E : instance <$> getChildren findModuleSymbol this
              = filter kept (children d)).
  { rewrite (getChildren_expands this d Hc Hd), <- list_fmap_compose.
    rewrite <- (list_fmap_id (filter kept (children d))) at 2.
    apply list_fmap_ext. intros i x _. apply instance_childItem. }
  split; [exact E|].
  apply Forall_forall. intros item Hin.
  apply (list_elem_of_fmap_2 instance) in Hin. rewrite E in Hin.
  apply list_elem_of_filter in Hin. exact (proj1 Hin).
Qed.

(** C6: a node with no definition expands to nothing, and an instance
    whose typeRef resolves to nothing is not dropped: its node, with no
    definition, is among the children of its parent. *)
Theorem C6_unresolved_expands_empty (this : ScopeItem) :
  definition this = None ->
  getChildren findModuleSymbol this = []
  /\ forall p d, parent this = Some p -> expands p = true ->
       definition p = Some d -> cls this = CModule ->
       instance this ∈ children d -> type (instance this) = "instance" ->
       findModuleSymbol (default EmptyString (typeRef (instance this))) = None ->
       this ∈ getChildren findModuleSymbol p.
Proof.
  intros Hd. split; [by apply getChildren_undefined|].
  intros p d Hp Hc Hpd Hcls Hin Hty Hnone.
  rewrite (getChildren_expands p d Hc Hpd).
  apply list_elem_of_fmap. exists (instance this). split.
  - unfold childItem. rewrite Hty, Hnone. cbn.
    destruct this as [c q i df]; cbn in *. by subst.
  - apply list_elem_of_filter. split; [|done].
    unfold kept. rewrite Hty. by apply (bool_decide_unpack _).
Qed.

(** C10: a node that getChildren made for a child that is neither a
    block nor an instance is a LogicItem: its definition is its own
    symbol, it expands to nothing, and hasChildren answers true for it
    as soon as that symbol has a child of a kind that is not excluded. *)
Theorem C10_leaf_has_children_mismatch (this item : ScopeItem) :
  item ∈ getChildren findModuleSymbol this ->
  type (instance item) <> "block" -> type (instance item) <> "instance" ->
  cls item = CLogic
  /\ definition item = Some (instance item)
  /\ getChildren findModuleSymbol item = []
  /\ (hasChildren item = true
      <-> Exists (fun c => type c ∉ EXCLUDED_SYMS) (children (instance item))).
Proof.
  intros Hin Hb Hi.
  destruct (getChildren_inv this item Hin) as (d & _ & _ & _ & _ & E).
  assert (Hl : item = LogicItem (Some this) (instance item)).
  { rewrite E at 1. unfold childItem. repeat case_decide; done. }
  assert (Hd : definition item = Some (instance item)) by (rewrite Hl; done).
  assert (Hcls : cls item = CLogic) by (rewrite Hl; done).
  repeat split; try done.
  - apply getChildren_no_expand. unfold expands. by rewrite Hcls.
  - unfold hasChildren. rewrite Hd. rewrite bool_decide_eq_true.
    intros Hlen. apply Exists_exists.
    destruct (filter kept (children (instance item))) as [|c l] eqn:Hf;
      [cbn in Hlen; lia|].
    assert (Hc : c ∈ filter kept (children (instance item))) by (rewrite Hf; left).
    apply list_elem_of_filter in Hc as [? ?]. eauto.
  - unfold hasChildren. rewrite Hd. rewrite bool_decide_eq_true.
    intros Hex. apply Exists_exists in Hex as (c & Hc & Hk).
    assert (Hc' : c ∈ filter kept (children (instance item)))
      by (apply list_elem_of_filter; done).
    destruct (filter kept (children (instance item))); [by apply elem_of_nil in Hc'|].
    cbn. lia.
Qed.

End Expand.

Lemma getChildren_socRoot :
  getChildren sampleIndex socRoot
  = [LogicItem (Some socRoot) sclk; pktNode; ghostNode].
Proof. reflexivity. Qed.

Lemma C1_expand_by_kind_witness :
  expands socRoot = true /\ definition socRoot = Some sSoc
  /\ Forall2 (by_kind sampleIndex Some socRoot)
       (filter kept (children sSoc)) (getChildren sampleIndex socRoot).
Proof.
  split; [reflexivity|]. split; [reflexivity|].
  apply (C1_expand_by_kind sampleIndex socRoot sSoc); reflexivity.
Defined.

(** C1 as the specification words it gives a leaf node no definition,
    and speaks of every node with a definition.  The port [clk] of [Soc]
    gets itself as definition, and the node of the struct [pkt], which
    has a definition and two members, expands to nothing. *)
Lemma C1_leaf_definition_counterexample :
  ~ Forall2 (by_kind sampleIndex (fun _ => None) socRoot)
      (filter kept (children sSoc)) (getChildren sampleIndex socRoot)
  /\ definition pktNode = Some spkt
  /\ ~ Forall2 (by_kind sampleIndex Some pktNode)
        (filter kept (children spkt)) (getChildren sampleIndex pktNode).
Proof.
  split; [|split; [reflexivity|]].
  - intros H. rewrite getChildren_socRoot in H.
    apply Forall2_length in H as Hlen.
    destruct (filter kept (children sSoc)) as [|c l] eqn:E; [discriminate|].
    vm_compute in E. injection E as <- _.
    apply Forall2_cons_1 in H as [(_ & _ & _ & _ & Hleaf) _].
    assert (Hn1 : type sclk <> "block") by discriminate.
    assert (Hn2 : type sclk <> "instance") by discriminate.
    destruct (Hleaf Hn1 Hn2) as [_ Hdef]. discriminate Hdef.
  - intros H. apply Forall2_length in H. vm_compute in H. discriminate.
Qed.

Lemma C2_expand_order_witness :
  expands socRoot = true /\ definition socRoot = Some sSoc
  /\ instance <$> getChildren sampleIndex socRoot = filter kept (children sSoc)
  /\ Forall (fun item => type (instance item) ∉ EXCLUDED_SYMS)
       (getChildren sampleIndex socRoot).
Proof.
  split; [reflexivity|]. split; [reflexivity|].
  apply (C2_expand_order sampleIndex socRoot sSoc); reflexivity.
Defined.

(** C2 as the specification words it holds of every node with a
    definition.  The node of the struct [pkt] is one: it is a child of
    the root of [Soc], its definition has two members of a kept kind,
    and it expands to nothing. *)
Lemma C2_logic_item_counterexample :
  pktNode ∈ getChildren sampleIndex socRoot
  /\ definition pktNode = Some spkt
  /\ instance <$> getChildren sampleIndex pktNode <> filter kept (children spkt).
Proof.
  split; [rewrite getChildren_socRoot; elem_of_list_now|].
  split; [reflexivity|]. intros H. vm_compute in H. discriminate.
Qed.

Lemma C6_unresolved_expands_empty_witness :
  definition ghostNode = None
  /\ getChildren sampleIndex ghostNode = []
  /\ ghostNode ∈ getChildren sampleIndex socRoot.
Proof.
  split; [reflexivity|].
  destruct (C6_unresolved_expands_empty sampleIndex ghostNode eq_refl) as [He Hp].
  split; [exact He|].
  apply (Hp socRoot sSoc); try reflexivity. elem_of_list_now.
Defined.

Lemma C10_leaf_has_children_mismatch_witness :
  pktNode ∈ getChildren sampleIndex socRoot
  /\ cls pktNode = CLogic
  /\ definition pktNode = Some (instance pktNode)
  /\ getChildren sampleIndex pktNode = []
  /\ hasChildren pktNode = true.
Proof.
  assert (Hin : pktNode ∈ getChildren sampleIndex socRoot)
    by (rewrite getChildren_socRoot; elem_of_list_now).
  split; [exact Hin|].
  assert (Hn1 : type (instance pktNode) <> "block") by discriminate.
  assert (Hn2 : type (instance pktNode) <> "instance") by discriminate.
  destruct (C10_leaf_has_children_mismatch sampleIndex socRoot pktNode Hin Hn1 Hn2)
    as (Hc & Hd & He & Hh).
  split; [exact Hc|]. split; [exact Hd|]. split; [exact He|].
  apply Hh. apply Exists_cons_hd. by apply (bool_decide_unpack _).
Defined.

(** ** The lookup of a hierarchical path ([setInstance]) *)

Lemma replace_no_match (s : string) :
  has_match s = false -> replace_regex s = s.
Proof.
  unfold replace_regex. induction s as [|c r IH]; [reflexivity|].
  cbn [has_match replace_from]. destruct (regex_exec (String c r)); [discriminate|].
  intros H. rewrite (IH H). reflexivity.
Qed.

Lemma length_replace_from (s : string) (k : nat) :
  String.length (replace_from k s) <= String.length s - k.
Proof.
  revert k. induction s as [|c r IH]; intros k; [cbn; lia|].
  cbn [replace_from]. destruct k as [|k].
  - destruct (regex_exec (String c r)) as [n|].
    + specialize (IH (pred n)). cbn [String.length]. lia.
    + specialize (IH 0). cbn [String.length]. lia.
  - specialize (IH k). cbn [String.length]. lia.
Qed.

Lemma replace_match_shorter (s : string) :
  has_match s = true -> String.length (replace_regex s) < String.length s.
Proof.
  unfold replace_regex. induction s as [|c r IH]; [discriminate|].
  cbn [has_match replace_from]. destruct (regex_exec (String c r)) as [n|].
  - intros _. pose proof (length_replace_from r (pred n)). cbn [String.length]. lia.
  - intros H. specialize (IH H). cbn [String.length]. lia.
Qed.

(** The cleaned path is left as it is by a second pass exactly when it
    holds no match. *)
Lemma replace_fixed_iff (s : string) :
  replace_regex s = s <-> has_match s = false.
Proof.
  split; [|apply replace_no_match].
  intros E. destruct (has_match s) eqn:H; [|reflexivity].
  apply replace_match_shorter in H. rewrite E in H. lia.
Qed.

Example replace_regex_samples :
  replace_regex "a.b[3].c" = "a.b.c"
  /\ replace_regex "a[12][3]x[]y[1" = "ax[]y[1"
  /\ replace_regex "m[0x1].n[ 2]" = "m[0x1].n[ 2]".
Proof. repeat split; reflexivity. Qed.

Example split_samples :
  split "a.b..c." = ["a"; "b"; EmptyString; "c"; EmptyString]
  /\ split EmptyString = [EmptyString].
Proof. split; reflexivity. Qed.

Lemma find_first {A : Type} (P : A -> bool) (l1 l2 : list A) (x : A) :
  Forall (fun y => P y = false) l1 -> P x = true ->
  List.find P (l1 ++ x :: l2) = Some x.
Proof.
  intros Hl Hx. induction Hl as [|y l Hy _ IH]; cbn.
  - by rewrite Hx.
  - by rewrite Hy.
Qed.

Lemma find_none {A : Type} (P : A -> bool) (l : list A) :
  Forall (fun y => P y = false) l -> List.find P l = None.
Proof.
  intros Hl. induction Hl as [|y l Hy _ IH]; cbn; [reflexivity|]. by rewrite Hy.
Qed.

Lemma find_elem_of {A : Type} (P : A -> bool) (l : list A) (x : A) :
  List.find P l = Some x -> x ∈ l /\ P x = true.
Proof. intros H. apply find_some in H as [H1 H2]. by apply list_elem_of_In in H1. Qed.

Lemma append_assoc (a b c : string) : (a +:+ b) +:+ c = a +:+ (b +:+ c).
Proof.
  induction a as [|x a IH]; [reflexivity|].
  change (String x ((a +:+ b) +:+ c) = String x (a +:+ (b +:+ c))).
  by rewrite IH.
Qed.

Lemma split_nonempty (s : string) : split s <> [].
Proof.
  destruct s as [|c r]; cbn; [done|]. case_decide; [done|]. by destruct (split r).
Qed.

(** Joining the segments with dots gives the string back. *)
Lemma split_join (s : string) : String.concat "." (split s) = s.
Proof.
  induction s as [|c r IH]; [reflexivity|]. cbn [split].
  pose proof (split_nonempty r) as Hne.
  destruct (split r) as [|h t] eqn:E; [done|]. case_decide as Hc.
  - subst c. change (String.concat "." (EmptyString :: h :: t))
      with ("." +:+ String.concat "." (h :: t)). by rewrite IH.
  - destruct t as [|h' t]; cbn in IH |- *; by rewrite <- IH.
Qed.

Lemma split_dot_free (s : string) : contains "." s = false -> split s = [s].
Proof.
  induction s as [|c r IH]; [reflexivity|]. cbn. case_decide as Hc; [discriminate|].
  intros Hr. by rewrite (IH Hr).
Qed.

Lemma split_app_dot (s rest : string) :
  contains "." s = false -> split (s +:+ "." +:+ rest) = s :: split rest.
Proof.
  induction s as [|c r IH]; [reflexivity|]. cbn [contains].
  case_decide as Hc; [discriminate|]. intros H.
  change (String c r +:+ "." +:+ rest) with (String c (r +:+ "." +:+ rest)).
  cbn [split]. rewrite decide_False by done. by rewrite (IH H).
Qed.

Lemma split_concat (names : list string) :
  names <> [] -> Forall (fun s => contains "." s = false) names ->
  split (String.concat "." names) = names.
Proof.
  induction names as [|x l IH]; [done|]. intros _ Hall.
  apply Forall_cons in Hall as [Hx Hl]. destruct l as [|y l].
  - by apply split_dot_free.
  - change (String.concat "." (x :: y :: l))
      with (x +:+ "." +:+ String.concat "." (y :: l)).
    rewrite split_app_dot by done. by rewrite IH.
Qed.

Lemma contains_append (c : ascii) (a b : string) :
  contains c (a +:+ b) = contains c a || contains c b.
Proof.
  induction a as [|x a IH]; [reflexivity|].
  change (String x a +:+ b) with (String x (a +:+ b)). cbn [contains].
  by case_decide.
Qed.

Lemma contains_concat (c : ascii) (sep : string) (names : list string) :
  contains c sep = false -> Forall (fun s => contains c s = false) names ->
  contains c (String.concat sep names) = false.
Proof.
  intros Hsep Hall. induction Hall as [|x l Hx Hl IH]; [reflexivity|].
  destruct l as [|y l]; [exact Hx|].
  change (String.concat sep (x :: y :: l))
    with (x +:+ sep +:+ String.concat sep (y :: l)).
  by rewrite !contains_append, Hx, Hsep, IH.
Qed.

(** The pattern starts with a bracket: a string without one holds no
    match. *)
Lemma has_match_no_bracket (s : string) :
  contains "[" s = false -> has_match s = false.
Proof.
  induction s as [|c r IH]; [reflexivity|]. cbn [contains has_match].
  case_decide as Hc; [discriminate|]. intros H.
  assert (E : regex_exec (String c r) = None).
  { unfold regex_exec. destruct c as [[] [] [] [] [] [] [] []]; try reflexivity.
    by destruct Hc. }
  rewrite E. by apply IH.
Qed.

Lemma replace_from_prefix (a b : string) :
  contains "[" a = false -> replace_from 0 (a +:+ b) = a +:+ replace_from 0 b.
Proof.
  induction a as [|c r IH]; [reflexivity|]. cbn [contains].
  case_decide as Hc; [discriminate|]. intros H.
  change (String c r +:+ b) with (String c (r +:+ b)). cbn [replace_from].
  assert (E : regex_exec (String c (r +:+ b)) = None).
  { unfold regex_exec. destruct c as [[] [] [] [] [] [] [] []]; try reflexivity.
    by destruct Hc. }
  rewrite E, (IH H). reflexivity.
Qed.

Lemma length_append (a b : string) :
  String.length (a +:+ b) = String.length a + String.length b.
Proof. induction a as [|c a IH]; [reflexivity|]. cbn. by rewrite <- IH. Qed.

Lemma replace_from_skip (a b : string) :
  replace_from (String.length a) (a +:+ b) = replace_from 0 b.
Proof. induction a as [|c a IH]; [by destruct b|]. exact IH. Qed.

Lemma after_digits_group (ds rest : string) :
  all_digits ds = true ->
  after_digits (ds +:+ String "]" rest) = String "]" rest.
Proof.
  induction ds as [|c r IH]; [reflexivity|]. cbn [all_digits].
  intros H. apply andb_true_iff in H as [Hc Hr].
  change (String c r +:+ String "]" rest) with (String c (r +:+ String "]" rest)).
  cbn [after_digits]. rewrite Hc. by apply IH.
Qed.

(** A bracketed number at the start of a string is dropped whole. *)
Lemma replace_from_group (ds rest : string) :
  all_digits ds = true -> ds <> EmptyString ->
  replace_from 0 (String "[" (ds +:+ String "]" rest)) = replace_from 0 rest.
Proof.
  intros Hd Hne. destruct ds as [|d r]; [done|]. cbn [all_digits] in Hd.
  apply andb_true_iff in Hd as [Hd Hr].
  assert (E : regex_exec (String "[" (String d r +:+ String "]" rest))
              = Some (S (S (String.length (r +:+ String "]" EmptyString))))).
  { change (String d r +:+ String "]" rest) with (String d (r +:+ String "]" rest)).
    unfold regex_exec. rewrite Hd, (after_digits_group r rest Hr).
    f_equal. cbn [String.length]. rewrite !length_append. cbn [String.length]. lia. }
  cbn [replace_from]. rewrite E. cbn [pred].
  change (String d r +:+ String "]" rest) with (String d (r +:+ String "]" rest)).
  cbn [replace_from].
  replace (r +:+ String "]" rest) with ((r +:+ String "]" EmptyString) +:+ rest)
    by (by rewrite append_assoc).
  apply replace_from_skip.
Qed.

Lemma digits_split (r : string) :
  exists digits, all_digits digits = true /\ r = digits +:+ after_digits r.
Proof.
  induction r as [|c r (ds & Hd & E)]; [by exists EmptyString|].
  cbn [after_digits]. destruct (is_digit c) eqn:Hc; [|by exists EmptyString].
  exists (String c ds). cbn [all_digits]. rewrite Hc, Hd. split; [done|].
  change (String c ds +:+ after_digits r) with (String c (ds +:+ after_digits r)).
  by rewrite <- E.
Qed.

(** Where the pattern matches, a bracketed number stands. *)
Lemma regex_exec_group (s : string) (n : nat) :
  regex_exec s = Some n ->
  exists digits after,
    all_digits digits = true /\ digits <> EmptyString
    /\ s = String "[" (digits +:+ String "]" after).
Proof.
  unfold regex_exec. destruct s as [|c r]; [discriminate|].
  destruct c as [[] [] [] [] [] [] [] []]; try discriminate.
  destruct r as [|d r]; [discriminate|].
  destruct (is_digit d) eqn:Hd; [|discriminate].
  destruct (digits_split r) as (ds & Hds & E).
  destruct (after_digits r) as [|e rest]; [discriminate|].
  destruct e as [[] [] [] [] [] [] [] []]; try discriminate.
  intros _. exists (String d ds), rest. cbn [all_digits]. rewrite Hd, Hds.
  split; [done|]. split; [done|].
  change (String d ds +:+ String "]" rest) with (String d (ds +:+ String "]" rest)).
  by rewrite <- E.
Qed.

(** Where a bracketed number stands, the pattern matches. *)
Lemma regex_exec_at_group (digits after : string) :
  all_digits digits = true -> digits <> EmptyString ->
  is_Some (regex_exec (String "[" (digits +:+ String "]" after))).
Proof.
  intros Hd Hne. destruct digits as [|d r]; [done|]. cbn [all_digits] in Hd.
  apply andb_true_iff in Hd as [Hd Hr].
  change (String d r +:+ String "]" after) with (String d (r +:+ String "]" after)).
  unfold regex_exec. rewrite Hd, (after_digits_group r after Hr). by eexists.
Qed.

(** The pattern matches somewhere in a string exactly when the string
    holds a bracketed numeric suffix. *)
Lemma has_match_iff_suffix (s : string) :
  has_match s = true <-> holds_suffix s.
Proof.
  split.
  - induction s as [|c r IH]; [discriminate|]. cbn [has_match].
    destruct (regex_exec (String c r)) as [n|] eqn:E.
    + intros _. destruct (regex_exec_group _ _ E) as (ds & after & Hd & Hne & Hs).
      by exists EmptyString, ds, after.
    + intros H. destruct (IH H) as (before & ds & after & Hd & Hne & Hs).
      exists (String c before), ds, after. split; [done|]. split; [done|].
      by rewrite Hs.
  - intros (before & ds & after & Hd & Hne & ->).
    induction before as [|c b IH].
    + change (EmptyString +:+ String "[" (ds +:+ String "]" after))
        with (String "[" (ds +:+ String "]" after)).
      cbn [has_match]. by destruct (regex_exec_at_group ds after Hd Hne) as [n ->].
    + change (String c b +:+ String "[" (ds +:+ String "]" after))
        with (String c (b +:+ String "[" (ds +:+ String "]" after))).
      cbn [has_match]. rewrite IH. by destruct (regex_exec _).
Qed.

Section PathLookup.

Variable findModuleSymbol : string -> option Symbol.

Lemma walk_app (top : option Symbol) (pre post : list string)
    (current : option ScopeItem) :
  walk findModuleSymbol top current (pre ++ post)
  = match walk findModuleSymbol top current pre with
    | inl msg => inl msg
    | inr c => walk findModuleSymbol top c post
    end.
Proof.
  revert current. induction pre as [|part pre IH]; intros current; [reflexivity|].
  cbn. destruct (List.find _ _); [apply IH | reflexivity].
Qed.

(** Past the first segment there is always a current node. *)
Lemma walk_current (top : option Symbol) (parts : list string)
    (current : option ScopeItem) :
  walk findModuleSymbol top current parts = inr None -> parts = [] /\ current = None.
Proof.
  revert current. induction parts as [|part parts IH]; intros current; cbn.
  - intros [= ->]. done.
  - destruct (List.find _ _) as [child|]; [|discriminate].
    intros H. apply IH in H as [_ [=]].
Qed.

Lemma setInstance_split (top : Symbol) (p : string) :
  setInstance findModuleSymbol (Some top) p
  = match walk findModuleSymbol (Some top) None (split (replace_regex p)) with
    | inl msg => ErrorMessage msg
    | inr None => Returned
    | inr (Some current) => Revealed current
    end.
Proof. reflexivity. Qed.

Lemma pathNames_child (p n : ScopeItem) :
  n ∈ getChildren findModuleSymbol p ->
  pathNames n = pathNames p ++ [name (instance n)].
Proof.
  intros Hin.
  destruct (getChildren_inv findModuleSymbol p n Hin) as (d & _ & _ & _ & _ & E).
  pose proof (parent_childItem findModuleSymbol p (children d) (instance n)) as Hp.
  rewrite <- E in Hp. destruct n as [c q i df]. cbn in Hp. by subst q.
Qed.

(** A walk from the top down the names of an addressable node ends at
    that node. *)
Lemma walk_pathNames (top : Symbol) (n : ScopeItem) :
  addressable findModuleSymbol top n ->
  walk findModuleSymbol (Some top) None (pathNames n) = inr (Some n).
Proof.
  induction 1 as [|p n _ IH Hfind].
  - cbn. by rewrite bool_decide_eq_true_2.
  - destruct (find_elem_of _ _ _ Hfind) as [Hin _].
    rewrite (pathNames_child p n Hin), walk_app, IH. cbn.
    by rewrite Hfind.
Qed.

(** A walk that ends at a node went down its names, and the node is
    addressable. *)
Lemma walk_addressable (top : Symbol) (parts : list string) :
  forall current n,
    walk findModuleSymbol (Some top) current parts = inr (Some n) ->
    from_option (addressable findModuleSymbol top) True current ->
    addressable findModuleSymbol top n
    /\ pathNames n = from_option pathNames [] current ++ parts.
Proof.
  induction parts as [|part parts IH]; intros current n Hw Hc.
  - cbn in Hw. injection Hw as ->. cbn. by rewrite app_nil_r.
  - cbn in Hw.
    destruct (List.find _ _) as [child|] eqn:Hfind; [|discriminate].
    destruct (find_elem_of _ _ _ Hfind) as [Hin Hname].
    apply bool_decide_eq_true in Hname.
    assert (Hchild : addressable findModuleSymbol top child
                     /\ pathNames child = from_option pathNames [] current ++ [part]).
    { destruct current as [c|]; cbn in *.
      - split; [|by rewrite (pathNames_child c child Hin), Hname].
        apply (addressable_child _ _ c child Hc). by rewrite Hname.
      - apply list_elem_of_singleton in Hin as ->. cbn in Hname. subst part.
        split; [constructor | reflexivity]. }
    destruct Hchild as [Ha Hp].
    destruct (IH (Some child) n Hw Ha) as [Hn Hpn].
    split; [exact Hn|]. cbn in Hpn. by rewrite Hpn, Hp, <- app_assoc.
Qed.


Lemma replace_written (pieces : list Piece) :
  Forall well_written pieces ->
  replace_regex (written pieces) = suffixes_removed pieces.
Proof.
  unfold replace_regex. induction 1 as [|[text|digits] rest Hp _ IH]; [reflexivity| |].
  - cbn [written suffixes_removed]. rewrite replace_from_prefix by exact Hp.
    by rewrite IH.
  - destruct Hp as [Hd Hne]. cbn [written suffixes_removed].
    rewrite replace_from_group by done. exact IH.
Qed.

Lemma suffixes_removed_no_bracket (pieces : list Piece) :
  Forall well_written pieces -> contains "[" (suffixes_removed pieces) = false.
Proof.
  induction 1 as [|[text|digits] rest Hp _ IH]; [reflexivity| |exact IH].
  cbn [suffixes_removed]. rewrite contains_append, IH. cbn in Hp. by rewrite Hp.
Qed.

(** C7, as the code has it: the pattern is removed in one pass from the
    left before the path is split.  For a path written as plain text
    without opening bracket in which bracketed numbers stand, the
    cleaned path is the text with the numbers left out, and the path
    resolves as the path without them does.  A path is left as it is
    exactly when it holds no bracketed number.  For any path, the path
    and its cleaned form resolve alike whenever the cleaned form holds
    no further match of the pattern. *)
Theorem C7_strip_brackets (top : Symbol) :
  (forall pieces, Forall well_written pieces ->
     replace_regex (written pieces) = suffixes_removed pieces
     /\ setInstance findModuleSymbol (Some top) (written pieces)
        = setInstance findModuleSymbol (Some top) (suffixes_removed pieces)
     /\ resolvePath findModuleSymbol top (written pieces)
        = resolvePath findModuleSymbol top (suffixes_removed pieces))
  /\ (forall p, replace_regex p = p <-> ~ holds_suffix p)
  /\ (forall p, has_match (replace_regex p) = false ->
        setInstance findModuleSymbol (Some top) p
        = setInstance findModuleSymbol (Some top) (replace_regex p)
        /\ resolvePath findModuleSymbol top p
           = resolvePath findModuleSymbol top (replace_regex p)).
Proof.
  assert (Hfix : forall p, has_match (replace_regex p) = false ->
            setInstance findModuleSymbol (Some top) p
            = setInstance findModuleSymbol (Some top) (replace_regex p)).
  { intros p H. apply replace_no_match in H. by rewrite !setInstance_split, H. }
  split.
  - intros pieces Hw. pose proof (replace_written pieces Hw) as E.
    assert (Hm : has_match (replace_regex (written pieces)) = false)
      by (rewrite E; by apply has_match_no_bracket, suffixes_removed_no_bracket).
    pose proof (Hfix _ Hm) as Hs. rewrite E in Hs.
    split; [exact E|]. split; [exact Hs|]. unfold resolvePath. by rewrite Hs.
  - split.
    + intros p. rewrite replace_fixed_iff, <- has_match_iff_suffix.
      by destruct (has_match p).
    + intros p H. split; [by apply Hfix|]. unfold resolvePath. by rewrite (Hfix p H).
Qed.

(** C8, as the code has it: the segments are walked in order; with no
    current node the only candidate is the root node of the top, then
    the candidates are the children of the current node, and the first
    one whose name is the segment is taken.  A segment that no candidate
    matches ends the command with an error message that names the
    segment and the current node, or "top level" when it is the first
    segment, and no node is revealed. *)
Theorem C8_walk_segments (top : Symbol) (pre : list string) (part : string)
    (current : option ScopeItem) :
  walk findModuleSymbol (Some top) None pre = inr current ->
  (current = None <-> pre = [])
  /\ (forall l1 child l2 post,
        view_getChildren findModuleSymbol (Some top) current = l1 ++ child :: l2 ->
        Forall (fun c => name (instance c) <> part) l1 ->
        name (instance child) = part ->
        walk findModuleSymbol (Some top) None (pre ++ part :: post)
        = walk findModuleSymbol (Some top) (Some child) post)
  /\ (Forall (fun c => name (instance c) <> part)
        (view_getChildren findModuleSymbol (Some top) current) ->
      forall post path,
        split (replace_regex path) = pre ++ part :: post ->
        setInstance findModuleSymbol (Some top) path
        = ErrorMessage
            ("Could not find instance " +:+ part +:+ " in "
             +:+ match current with
                 | Some c => name (instance c)
                 | None => "top level"
                 end)
        /\ resolvePath findModuleSymbol top path = None).
Proof.
  intros Hpre. split; [|split].
  - split.
    + intros ->. by apply walk_current in Hpre as [-> _].
    + intros ->. cbn in Hpre. congruence.
  - intros l1 child l2 post Hch Hl1 Hname.
    rewrite walk_app, Hpre. cbn. rewrite Hch.
    rewrite (find_first _ l1 l2 child); [reflexivity| |by apply bool_decide_eq_true].
    eapply Forall_impl; [exact Hl1|]. intros c Hc. by apply bool_decide_eq_false.
  - intros Hnone post path Hsplit.
    assert (E : setInstance findModuleSymbol (Some top) path
                = ErrorMessage (notFoundMessage part current)).
    { rewrite setInstance_split, Hsplit, walk_app, Hpre. cbn.
      rewrite find_none; [reflexivity|].
      eapply Forall_impl; [exact Hnone|]. intros c Hc. by apply bool_decide_eq_false. }
    split; [exact E|]. unfold resolvePath. by rewrite E.
Qed.

(** C9, as the code has it: the empty path splits into one empty
    segment, which is compared with the name of the top; so it reveals
    the root node only when that name is empty, and ends with the error
    message for the empty segment at "top level" otherwise.  A path
    resolves to the root node exactly when its cleaned form consists of
    one segment, the name of the top. *)
Theorem C9_empty_path (top : Symbol) :
  setInstance findModuleSymbol (Some top) EmptyString
  = (if decide (name top = EmptyString) then Revealed (RootItem top)
     else ErrorMessage "Could not find instance  in top level")
  /\ (resolvePath findModuleSymbol top EmptyString = Some (RootItem top)
      <-> name top = EmptyString)
  /\ (forall p,
        resolvePath findModuleSymbol top p = Some (RootItem top)
        <-> split (replace_regex p) = [name top]).
Proof.
  assert (E : setInstance findModuleSymbol (Some top) EmptyString
              = if decide (name top = EmptyString) then Revealed (RootItem top)
                else ErrorMessage "Could not find instance  in top level").
  { rewrite setInstance_split. cbn.
    case_decide as Hn.
    - by rewrite bool_decide_eq_true_2.
    - by rewrite bool_decide_eq_false_2. }
  split; [exact E|]. split.
  - unfold resolvePath. rewrite E. case_decide; split; try done.
  - intros p. unfold resolvePath. rewrite setInstance_split. split.
    + destruct (walk findModuleSymbol (Some top) None (split (replace_regex p)))
        as [msg|[current|]] eqn:Hw; try discriminate.
      intros [= ->].
      destruct (walk_addressable top _ None _ Hw I) as [_ Hp]. cbn in Hp. by rewrite <- Hp.
    + intros Hp. rewrite Hp. cbn. by rewrite bool_decide_eq_true_2.
Qed.

End PathLookup.

Lemma C7_strip_brackets_witness :
  Forall well_written [Plain "Top.blk"; Suffix "3"; Plain ".u2"]
  /\ written [Plain "Top.blk"; Suffix "3"; Plain ".u2"] = "Top.blk[3].u2"
  /\ replace_regex "Top.blk[3].u2" = "Top.blk.u2"
  /\ setInstance sampleIndex (Some sTop) "Top.blk[3].u2"
     = setInstance sampleIndex (Some sTop) "Top.blk.u2"
  /\ resolvePath sampleIndex sTop "Top.blk[3].u2"
     = resolvePath sampleIndex sTop "Top.blk.u2".
Proof.
  assert (Hw : Forall well_written [Plain "Top.blk"; Suffix "3"; Plain ".u2"])
    by (repeat constructor; discriminate).
  split; [exact Hw|]. split; [reflexivity|].
  destruct (C7_strip_brackets sampleIndex sTop) as [Hpieces _].
  exact (Hpieces [Plain "Top.blk"; Suffix "3"; Plain ".u2"] Hw).
Defined.

(** C7 as the specification words it holds of every path.  One pass over
    [Top[[0]1]] removes the inner [[0]] and leaves [Top[1]], which is
    not the name of the top; the cleaned path [Top[1]] itself resolves,
    as [Top] does, to the root. *)
Lemma C7_nested_brackets_counterexample :
  replace_regex "Top[[0]1]" = "Top[1]"
  /\ resolvePath sampleIndex sTop "Top[[0]1]" = None
  /\ resolvePath sampleIndex sTop "Top[1]" = Some (RootItem sTop)
  /\ resolvePath sampleIndex sTop "Top[[0]1]"
     <> resolvePath sampleIndex sTop (replace_regex "Top[[0]1]").
Proof. repeat split; try reflexivity. discriminate. Qed.

Lemma C8_walk_segments_witness :
  walk sampleIndex (Some sTop) None ["Top"; "blk"]
  = inr (Some (InternalScopeItem (Some (RootItem sTop)) sblk))
  /\ setInstance sampleIndex (Some sTop) "Top.blk[1].U2.x"
     = ErrorMessage "Could not find instance U2 in blk"
  /\ resolvePath sampleIndex sTop "Top.blk[1].U2.x" = None.
Proof.
  split; [reflexivity|].
  destruct (C8_walk_segments sampleIndex sTop ["Top"; "blk"] "U2"
              (Some (InternalScopeItem (Some (RootItem sTop)) sblk)) eq_refl)
    as (_ & _ & Hfail).
  apply (Hfail ltac:(repeat constructor; discriminate) ["x"]). reflexivity.
Defined.

(** C8 as the specification words it names, for a segment that is not
    found, the parent it was looked up under, and starts the walk at the
    root: for ["nope.x"] that is the top.  The root of [Top] has no
    child of that name, and the message names "top level", not [Top]. *)
Lemma C8_top_level_counterexample :
  Forall (fun c => name (instance c) <> "nope")
    (getChildren sampleIndex (RootItem sTop))
  /\ setInstance sampleIndex (Some sTop) "nope.x"
     = ErrorMessage "Could not find instance nope in top level"
  /\ setInstance sampleIndex (Some sTop) "nope.x"
     <> ErrorMessage (notFoundMessage "nope" (Some (RootItem sTop))).
Proof.
  split; [repeat constructor; discriminate|].
  split; [reflexivity|]. discriminate.
Qed.

Lemma C9_empty_path_witness :
  setInstance sampleIndex (Some sTop) EmptyString
  = ErrorMessage "Could not find instance  in top level"
  /\ resolvePath sampleIndex sTop "Top[7]" = Some (RootItem sTop)
  /\ split (replace_regex "Top.blk") <> [name sTop].
Proof.
  destruct (C9_empty_path sampleIndex sTop) as (E & _ & Hroot).
  split; [exact E|]. split.
  - apply (Hroot "Top[7]"). reflexivity.
  - discriminate.
Defined.

(** C9 as the specification words it: the empty path does not resolve
    to the root of [Top]. *)
Lemma C9_empty_path_counterexample :
  resolvePath sampleIndex sTop EmptyString <> Some (RootItem sTop).
Proof. discriminate. Qed.

(** A top whose name holds a dot is not reached by its own name: the
    cleaned path is split at the dot. *)
Example dotted_top_not_reached :
  replace_regex "lib.Top[0]" = name sDotted
  /\ split (replace_regex "lib.Top[0]") = ["lib"; "Top"]
  /\ resolvePath sampleIndex sDotted "lib.Top[0]" = None.
Proof. repeat split; reflexivity. Qed.

(** ** The reverse index ([indexTop]) *)

Lemma ScopeItem_ind (P : ScopeItem -> Prop)
  (Hroot : forall c i d, P (mkScopeItem c None i d))
  (Hstep : forall c p i d, P p -> P (mkScopeItem c (Some p) i d)) :
  forall n, P n.
Proof. fix IH 1. intros [c [p|] i d]; [apply Hstep, IH | apply Hroot]. Qed.

Lemma concat_snoc (sep : string) (l : list string) (x : string) :
  l <> [] -> String.concat sep (l ++ [x]) = String.concat sep l +:+ sep +:+ x.
Proof.
  induction l as [|y l IH]; [done|]. intros _.
  destruct l as [|z l]; [reflexivity|].
  change (String.concat sep ((y :: z :: l) ++ [x]))
    with (y +:+ sep +:+ String.concat sep ((z :: l) ++ [x])).
  rewrite IH by done.
  change (String.concat sep (y :: z :: l))
    with (y +:+ sep +:+ String.concat sep (z :: l)).
  by rewrite !append_assoc.
Qed.

Lemma pathNames_nonempty (this : ScopeItem) : pathNames this <> [].
Proof. destruct this as [c [p|] i d]; cbn; [|done]. by destruct (pathNames p). Qed.

(** [getPath] joins the names from the root down with dots. *)
Lemma getPath_join (this : ScopeItem) :
  getPath this = String.concat "." (pathNames this).
Proof.
  induction this as [c i d|c p i d IH] using ScopeItem_ind; [reflexivity|].
  cbn [getPath pathNames]. rewrite concat_snoc by apply pathNames_nonempty.
  by rewrite IH.
Qed.

Lemma modules_visit (st : IndexState) (item : ScopeItem) :
  modules (visit st item)
  = if isInstanceItem item then
      match ProjectComponent.definition item with
      | Some d =>
          <[d := addInstance (default (newModuleItem d) (modules st !! d)) item]>
            (modules st)
      | None => modules st
      end
    else modules st.
Proof.
  unfold visit. destruct (isInstanceItem item); [|reflexivity].
  destruct (ProjectComponent.definition item) as [d|]; [|reflexivity].
  assert (E : <[d := addInstance (DefaultMap_get (modules st) d).1 item]>
                (DefaultMap_get (modules st) d).2
              = <[d := addInstance (default (newModuleItem d) (modules st !! d)) item]>
                  (modules st)).
  { unfold DefaultMap_get. destruct (modules st !! d) as [m|]; cbn; [done|].
    by rewrite insert_insert_eq. }
  cbn zeta. by case_match.
Qed.

Lemma lookupInstance_visit (st : IndexState) (item : ScopeItem)
    (d : Symbol) (p : string) :
  lookupInstance (modules (visit st item)) d p
  = if decide (recorded_under d p item) then Some item
    else lookupInstance (modules st) d p.
Proof.
  rewrite modules_visit. unfold lookupInstance.
  destruct (decide (recorded_under d p item)) as [(Hk & Hd & Hp)|Hn].
  - rewrite Hk, Hd, lookup_insert_eq. cbn. by rewrite <- Hp, lookup_insert_eq.
  - destruct (isInstanceItem item) eqn:Hk; [|reflexivity].
    destruct (ProjectComponent.definition item) as [d'|] eqn:Hd; [|reflexivity].
    destruct (decide (d' = d)) as [->|Hne]; [|by rewrite lookup_insert_ne].
    rewrite lookup_insert_eq. cbn.
    rewrite lookup_insert_ne by (intros Hp; apply Hn; done).
    destruct (modules st !! d); [reflexivity|]. cbn. by rewrite lookup_empty.
Qed.

Lemma lookupInstance_foldl (visited : list ScopeItem) (d : Symbol) (p : string) :
  lookupInstance (modules (foldl visit startState visited)) d p
  = last (filter (recorded_under d p) visited).
Proof.
  induction visited as [|item visited IH] using rev_ind; [reflexivity|].
  rewrite foldl_snoc, lookupInstance_visit, filter_app, IH.
  rewrite filter_cons, filter_nil. case_decide.
  - by rewrite last_snoc.
  - by rewrite app_nil_r.
Qed.

(** C3, as the code has it: after the pass over a sequence of visits
    the index holds, under a definition and a path, the last visited
    node of kind Module with that definition whose getPath is that path
    (a later visit replaces an earlier one filed under the same
    definition and path; nodes without a definition are filed nowhere);
    getPath is the dot-join of the names from the root down to the
    node. *)
Theorem C3_index_records (visited : list ScopeItem) (d : Symbol) (p : string) :
  lookupInstance (modules (indexVisited visited)) d p
  = last (filter (recorded_under d p) visited)
  /\ (forall item, lookupInstance (modules (indexVisited visited)) d p = Some item ->
        item ∈ visited /\ cls item = CModule
        /\ ProjectComponent.definition item = Some d
        /\ p = String.concat "." (pathNames item)).
Proof.
  assert (E : lookupInstance (modules (indexVisited visited)) d p
              = last (filter (recorded_under d p) visited))
    by apply lookupInstance_foldl.
  split; [exact E|]. intros item Hi. rewrite E in Hi.
  apply last_Some_elem_of, list_elem_of_filter in Hi as [(Hk & Hd & Hp) Hin].
  unfold isInstanceItem in Hk. apply bool_decide_eq_true in Hk.
  by rewrite <- getPath_join.
Qed.

Lemma C3_index_records_witness :
  lookupInstance (modules (indexVisited [dupRoot; dupFirst; dupSecond]))
    sLeaf "Dup.u" = Some dupSecond
  /\ dupSecond ∈ [dupRoot; dupFirst; dupSecond]
  /\ cls dupSecond = CModule
  /\ ProjectComponent.definition dupSecond = Some sLeaf
  /\ "Dup.u" = String.concat "." (pathNames dupSecond).
Proof.
  destruct (C3_index_records [dupRoot; dupFirst; dupSecond] sLeaf "Dup.u")
    as [E Hrec].
  assert (E' : lookupInstance (modules (indexVisited [dupRoot; dupFirst; dupSecond]))
                 sLeaf "Dup.u" = Some dupSecond) by (rewrite E; reflexivity).
  split; [exact E'|]. exact (Hrec dupSecond E').
Defined.

(** C3 as the specification words it has every visited instance with a
    definition recorded.  The two instances [u] of [Dup] are the
    children of its root, both are visited and both resolve to [Leaf];
    they share the path [Dup.u], and the index keeps the second only. *)
Lemma C3_duplicate_path_counterexample :
  getChildren sampleIndex dupRoot = [dupFirst; dupSecond]
  /\ ~ (forall item d,
          item ∈ dupRoot :: getChildren sampleIndex dupRoot ->
          cls item = CModule -> ProjectComponent.definition item = Some d ->
          lookupInstance
            (modules (indexVisited (dupRoot :: getChildren sampleIndex dupRoot)))
            d (getPath item) = Some item).
Proof.
  split; [reflexivity|]. intros H.
  specialize (H dupFirst sLeaf).
  assert (Hin : dupFirst ∈ dupRoot :: getChildren sampleIndex dupRoot)
    by (right; left).
  specialize (H Hin eq_refl eq_refl).
  unfold indexVisited in H. cbn [modules finish] in H.
  rewrite lookupInstance_foldl in H. vm_compute in H. discriminate H.
Qed.

(** The design [Top]: the root expands to the instance and the block,
    the block to its instance, and both instances are found under
    [Leaf] by their paths. *)
Example index_of_Top :
  getChildren sampleIndex (RootItem sTop)
  = [ProjectComponent.ModuleItem (Some (RootItem sTop)) su1 (Some sLeaf);
     InternalScopeItem (Some (RootItem sTop)) sblk]
  /\ getChildren sampleIndex (InternalScopeItem (Some (RootItem sTop)) sblk)
     = [ProjectComponent.ModuleItem
          (Some (InternalScopeItem (Some (RootItem sTop)) sblk)) su2 (Some sLeaf)]
  /\ (getPath <$> (st ← indexTop sampleIndex 4 (RootItem sTop);
                   lookupInstance (modules st) sLeaf "Top.u1"))
     = Some "Top.u1"
  /\ (getPath <$> (st ← indexTop sampleIndex 4 (RootItem sTop);
                   lookupInstance (modules st) sLeaf "Top.blk.u2"))
     = Some "Top.blk.u2".
Proof. repeat split; reflexivity. Qed.

(** ** The progress reports of [indexTop] *)

Lemma Zsum_cons (x : Z) (l : list Z) : Zsum (x :: l) = (x + Zsum l)%Z.
Proof. reflexivity. Qed.

Lemma Zsum_app (l1 l2 : list Z) : Zsum (l1 ++ l2) = (Zsum l1 + Zsum l2)%Z.
Proof. unfold Zsum. induction l1 as [|x l1 IH]; cbn; [reflexivity|]. rewrite IH. lia. Qed.

Lemma Zsum_snoc (l : list Z) (x : Z) : Zsum (l ++ [x]) = (Zsum l + x)%Z.
Proof. rewrite Zsum_app, Zsum_cons. change (Zsum []) with 0%Z. lia. Qed.


Lemma Qfloor_below_95 (q : Q) : (q < 95)%Q -> (Qfloor q <= 94)%Z.
Proof.
  intros Hq. assert (H : (Qfloor q < 95)%Z); [|lia].
  rewrite Zlt_Qlt. eapply Qle_lt_trans; [apply Qfloor_le | exact Hq].
Qed.

(** A visit that is not one of an instance with a definition changes
    nothing. *)
Lemma visit_skipped (st : IndexState) (item : ScopeItem) :
  isInstanceItem item = false \/ ProjectComponent.definition item = None ->
  visit st item = st.
Proof.
  unfold visit. intros [H|H]; rewrite H; [done|]. by destruct (isInstanceItem item).
Qed.

(** What a visit of an instance with a definition does to the variables
    of the progress. *)
Lemma visit_recorded (st : IndexState) (item : ScopeItem) (d : Symbol) :
  isInstanceItem item = true -> ProjectComponent.definition item = Some d ->
  pct (visit st item) = (pct st + (95 - pct st) * (1 # 1000))%Q
  /\ lastReport (visit st item)
     = (if (lastReport st <? Qfloor (pct st + (95 - pct st) * (1 # 1000)))%Z
        then Qfloor (pct st + (95 - pct st) * (1 # 1000))
        else lastReport st)
  /\ reports (visit st item)
     = (if (lastReport st <? Qfloor (pct st + (95 - pct st) * (1 # 1000)))%Z
        then reports st
             ++ [(Qfloor (pct st + (95 - pct st) * (1 # 1000)) - lastReport st)%Z]
        else reports st).
Proof.
  intros Hi Hd. unfold visit. rewrite Hi, Hd. cbn zeta. by case_match.
Qed.

Lemma count_cons (item : ScopeItem) (items : list ScopeItem) :
  length (filter counted (item :: items))
  = (if decide (counted item) then 1 else 0) + length (filter counted items).
Proof. rewrite filter_cons. by case_decide. Qed.

Lemma counted_cases (item : ScopeItem) :
  (exists d, isInstanceItem item = true /\ ProjectComponent.definition item = Some d
             /\ counted item)
  \/ ((isInstanceItem item = false \/ ProjectComponent.definition item = None)
      /\ ~ counted item).
Proof.
  unfold counted. destruct (isInstanceItem item) eqn:Hi.
  - destruct (ProjectComponent.definition item) as [d|] eqn:Hd.
    + left. exists d. by repeat split.
    + right. split; [by right|]. intros [_ [x Hx]]. discriminate.
  - right. split; [by left|]. intros [H _]. discriminate.
Qed.

(** The value of [pct] after a run, in closed form. *)
Lemma pct_foldl (items : list ScopeItem) :
  forall st,
    (pct (foldl visit st items)
     == 95 - (95 - pct st) * Qpow (999 # 1000) (length (filter counted items)))%Q.
Proof.
  induction items as [|item items IH]; intros st.
  - cbn. ring.
  - cbn [foldl]. rewrite IH, count_cons.
    destruct (counted_cases item) as [(d & Hi & Hd & Hc)|[Hs Hc]].
    + destruct (visit_recorded st item d Hi Hd) as (Hp & _ & _).
      rewrite Hp, decide_True by done. cbn [Nat.add Qpow]. ring.
    + rewrite (visit_skipped st item Hs), decide_False by done. reflexivity.
Qed.

Lemma floor_ok_start : floor_ok startState.
Proof. constructor; cbn; try done. exists []. by repeat split. Qed.

Lemma floor_ok_visit (st : IndexState) (item : ScopeItem) :
  floor_ok st -> floor_ok (visit st item).
Proof.
  intros Hok.
  destruct (counted_cases item) as [(d & Hi & Hd & _)|[Hs _]];
    [|by rewrite (visit_skipped st item Hs)].
  destruct Hok as [Hl Hu Hfl (incs & Hr & Hpos & Hsum)].
  destruct (visit_recorded st item d Hi Hd) as (Hp & Hlast & Hrep).
  set (pct' := (pct st + (95 - pct st) * (1 # 1000))%Q) in *.
  assert (Hl' : (0 <= pct')%Q) by (unfold pct'; lra).
  assert (Hu' : (pct' < 95)%Q) by (unfold pct'; lra).
  assert (Hm : (Qfloor (pct st) <= Qfloor pct')%Z)
    by (apply Qfloor_resp_le; unfold pct'; lra).
  destruct (lastReport st <? Qfloor pct')%Z eqn:Hlt;
    [apply Z.ltb_lt in Hlt | apply Z.ltb_ge in Hlt];
    constructor; rewrite ?Hp, ?Hlast, ?Hrep; try done; try lia.
  - exists (incs ++ [(Qfloor pct' - lastReport st)%Z]). rewrite Hr.
    split; [reflexivity|]. split.
    + apply Forall_app. split; [done|]. repeat constructor. lia.
    + rewrite Zsum_snoc. lia.
  - by exists incs.
Qed.

Lemma floor_ok_foldl (visited : list ScopeItem) (st : IndexState) :
  floor_ok st -> floor_ok (foldl visit st visited).
Proof.
  revert st. induction visited as [|item visited IH]; intros st Hst; [done|].
  cbn. apply IH, floor_ok_visit, Hst.
Qed.

Lemma Zsum_at_least_length (l : list Z) :
  Forall (Z.le 1) l -> (Z.of_nat (length l) <= Zsum l)%Z.
Proof.
  intros Hl. induction Hl as [|x l Hx _ IH]; [done|].
  rewrite Zsum_cons. cbn [length]. lia.
Qed.






Lemma advance_correct (p q : Q) :
  (p == q)%Q -> (p + (95 - p) * (1 # 1000) == advance q)%Q.
Proof. intros E. unfold advance. rewrite Qred_correct, E. reflexivity. Qed.

(** The reports of a run can be computed on fractions in lowest terms. *)
Lemma foldl_visit_reduced (items : list ScopeItem) :
  forall st q,
    Forall (fun item => isInstanceItem item = true
                        /\ is_Some (ProjectComponent.definition item)) items ->
    (pct st == q)%Q ->
    (lastReport (foldl visit st items), reports (foldl visit st items))
    = reduced_run (length items) q (lastReport st) (reports st).
Proof.
  induction items as [|item items IH]; intros st q Hall Hq; [reflexivity|].
  apply Forall_cons in Hall as [[Hi [d Hd]] Hall].
  destruct (visit_recorded st item d Hi Hd) as (Hp & Hl & Hr).
  pose proof (advance_correct _ _ Hq) as Hq'.
  assert (Hfl : Qfloor (pct st + (95 - pct st) * (1 # 1000)) = Qfloor (advance q))
    by (by apply Qfloor_comp).
  cbn [foldl length reduced_run].
  rewrite (IH (visit st item) (advance q) Hall) by (rewrite Hp; exact Hq').
  rewrite Hl, Hr, Hfl.
  by destruct (lastReport st <? Qfloor (advance q))%Z.
Qed.

(** The reports of a pass over a root and instances with definitions. *)
Lemma reports_of_instances (root : ScopeItem) (items : list ScopeItem) :
  isInstanceItem root = false ->
  Forall (fun item => isInstanceItem item = true
                      /\ is_Some (ProjectComponent.definition item)) items ->
  reports (indexVisited (root :: items))
  = (reduced_run (length items) 0 0 [0%Z]).2 ++ [100%Z].
Proof.
  intros Hroot Hall. unfold indexVisited, finish. cbn [reports foldl].
  rewrite (visit_skipped startState root) by (by left).
  pose proof (foldl_visit_reduced items startState 0%Q Hall (Qeq_refl _)) as Hrun.
  apply (f_equal snd) in Hrun. cbn [snd] in Hrun. by rewrite Hrun.
Qed.

Lemma totals_of_three (r : list Z) :
  r = [0; 1; 100]%Z ->
  cumulative 0 r = [0; 1; 101]%Z /\ shown 0 r = [0; 1; 100]%Z.
Proof. intros ->. split; reflexivity. Qed.

(** The pass over the root of [Wide] and its eleven instances: the
    eleventh visit brings [pct] above 1, an increment of 1 is reported,
    and the last report hands over 100 more.  The increments add up to
    101; the sink shows 0, 1 and 100. *)
Example reports_of_wide :
  length (getChildren sampleIndex wideRoot) = 11
  /\ reports (indexVisited (wideRoot :: getChildren sampleIndex wideRoot))
     = [0; 1; 100]%Z
  /\ cumulative 0
       (reports (indexVisited (wideRoot :: getChildren sampleIndex wideRoot)))
     = [0; 1; 101]%Z
  /\ shown 0
       (reports (indexVisited (wideRoot :: getChildren sampleIndex wideRoot)))
     = [0; 1; 100]%Z.
Proof.
  split; [reflexivity|].
  assert (Hall : Forall (fun item => isInstanceItem item = true
                     /\ is_Some (ProjectComponent.definition item))
                   (getChildren sampleIndex wideRoot)).
  { apply (bool_decide_unpack _). vm_compute. exact I. }
  assert (E : reports (indexVisited (wideRoot :: getChildren sampleIndex wideRoot))
              = [0; 1; 100]%Z).
  { etrans; [exact (reports_of_instances wideRoot _ eq_refl Hall)|].
    vm_compute. reflexivity. }
  split; [exact E|]. exact (totals_of_three _ E).
Qed.

(** ** The traversal of a hierarchy with cycles *)

Lemma height_child (d c : Symbol) : c ∈ children d -> height c < height d.
Proof.
  destruct d as [i n t r ch]. cbn [children height].
  induction ch as [|x ch IH]; intros Hin; [by apply elem_of_nil in Hin|].
  apply elem_of_cons in Hin as [->|Hin]; [lia|]. specialize (IH Hin). lia.
Qed.

Lemma filter_off_path_le (l path : list Symbol) (x : Symbol) :
  length (filter (fun m => m ∉ x :: path) l)
  <= length (filter (fun m => m ∉ path) l).
Proof.
  induction l as [|a l IH]; [done|]. rewrite !filter_cons.
  destruct (decide (a ∉ x :: path)) as [H1|H1];
    destruct (decide (a ∉ path)) as [H2|H2]; cbn; try lia.
  exfalso. apply H2. intros Hin. apply H1. by right.
Qed.

Lemma filter_off_path_lt (l path : list Symbol) (x : Symbol) :
  NoDup l -> x ∈ l -> x ∉ path ->
  length (filter (fun m => m ∉ x :: path) l)
  < length (filter (fun m => m ∉ path) l).
Proof.
  intros Hnd Hin Hx. induction Hnd as [|a l Ha Hnd IH]; [by apply elem_of_nil in Hin|].
  rewrite !filter_cons. apply elem_of_cons in Hin as [<-|Hin].
  - rewrite decide_False by (intros H; apply H; left).
    rewrite decide_True by done. cbn.
    pose proof (filter_off_path_le l path x). lia.
  - specialize (IH Hin).
    destruct (decide (a ∉ x :: path)) as [H1|H1];
      destruct (decide (a ∉ path)) as [H2|H2]; cbn; try lia.
    exfalso. apply H2. intros Ha'. apply H1. by right.
Qed.

Lemma unvisited_le (W path : list Symbol) (x : Symbol) :
  unvisited W (x :: path) <= unvisited W path.
Proof. apply filter_off_path_le. Qed.

Lemma unvisited_lt (W path : list Symbol) (m : Symbol) :
  m ∈ W -> m ∉ path -> unvisited W (m :: path) < unvisited W path.
Proof.
  intros Hin Hm. apply filter_off_path_lt; [apply NoDup_remove_dups | | done].
  by apply elem_of_remove_dups.
Qed.

Lemma length_remove_dups (l : list Symbol) : length (remove_dups l) <= length l.
Proof.
  induction l as [|x l IH]; [done|]. cbn. case_decide; cbn; lia.
Qed.

Lemma unvisited_bound (W path : list Symbol) : unvisited W path <= length W.
Proof.
  unfold unvisited. etrans; [apply length_filter|]. apply length_remove_dups.
Qed.

Section Traversal.

Variable findModuleSymbol : string -> option Symbol.

Lemma reaches_chain (m d : Symbol) :
  reaches_instance findModuleSymbol m d ->
  exists chain, is_chain findModuleSymbol m d chain.
Proof.
  induction 1 as [d H|d b Hb _ [chain IH]|d e He _ [chain IH]].
  - by exists [].
  - exists (b :: chain). cbn. auto.
  - exists (e :: chain). cbn. auto.
Qed.

Lemma is_chain_from (m d x : Symbol) (chain l1 l2 : list Symbol) :
  is_chain findModuleSymbol m x chain -> x :: chain = l1 ++ d :: l2 ->
  is_chain findModuleSymbol m d l2.
Proof.
  revert x chain. induction l1 as [|y l1 IH]; intros x chain Hc E; cbn in E.
  - by injection E as -> ->.
  - injection E as -> ->. destruct l1 as [|z l1]; cbn in Hc.
    + by destruct Hc as [_ Hc].
    + destruct Hc as [_ Hc]. by apply (IH z (l1 ++ d :: l2)).
Qed.

(** A chain can be cut down to one that passes no definition twice. *)
Lemma is_chain_simple (m d : Symbol) (chain : list Symbol) :
  is_chain findModuleSymbol m d chain ->
  exists chain', is_chain findModuleSymbol m d chain' /\ NoDup (d :: chain').
Proof.
  revert d. induction chain as [|e rest IH]; intros d Hc.
  - exists []. split; [done|]. apply NoDup_singleton.
  - destruct Hc as [Hstep Hc]. destruct (IH e Hc) as (chain1 & Hc1 & Hnd1).
    destruct (decide (d ∈ e :: chain1)) as [Hin|Hnin].
    + apply list_elem_of_split in Hin as (l1 & l2 & E).
      exists l2. split; [by apply (is_chain_from m d e chain1 l1 l2)|].
      rewrite E in Hnd1. by apply NoDup_app in Hnd1 as (_ & _ & Hnd1).
    + exists (e :: chain1). split; [by split|]. by apply NoDup_cons.
Qed.

Lemma definition_childItem (this : ScopeItem) (syms : list Symbol) (c : Symbol) :
  ProjectComponent.definition (childItem findModuleSymbol this syms c)
  = if decide (type c = "block") then Some c
    else if decide (type c = "instance")
         then findModuleSymbol (default EmptyString (typeRef c))
         else Some c.
Proof. unfold childItem. by repeat case_decide. Qed.

(** The node that stands for an instance of a definition. *)
Lemma instance_child (item : ScopeItem) (d m : Symbol) :
  expands item = true -> ProjectComponent.definition item = Some d ->
  instantiates findModuleSymbol d m ->
  exists child, child ∈ getChildren findModuleSymbol item
    /\ ProjectComponent.definition child = Some m
    /\ expands child = true /\ cls child = CModule.
Proof.
  intros Hx Hd (c & Hin & Hty & Hres).
  rewrite (getChildren_expands findModuleSymbol item d Hx Hd).
  exists (childItem findModuleSymbol item (children d) c).
  assert (Hnb : type c <> "block") by (rewrite Hty; discriminate).
  split; [|split; [|split]].
  - apply list_elem_of_fmap_2, list_elem_of_filter. split; [|done].
    unfold kept. rewrite Hty. by apply (bool_decide_unpack _).
  - rewrite definition_childItem. by rewrite decide_False, decide_True.
  - unfold childItem. by rewrite decide_False, decide_True.
  - unfold childItem. by rewrite decide_False, decide_True.
Qed.

(** The node that stands for a block of a definition. *)
Lemma block_child (item : ScopeItem) (d b : Symbol) :
  expands item = true -> ProjectComponent.definition item = Some d ->
  encloses d b ->
  exists child, child ∈ getChildren findModuleSymbol item
    /\ ProjectComponent.definition child = Some b
    /\ expands child = true.
Proof.
  intros Hx Hd [Hin Hb].
  rewrite (getChildren_expands findModuleSymbol item d Hx Hd).
  exists (childItem findModuleSymbol item (children d) b). split; [|split].
  - apply list_elem_of_fmap_2, list_elem_of_filter. split; [|done].
    unfold kept. rewrite Hb. by apply (bool_decide_unpack _).
  - rewrite definition_childItem. by rewrite decide_True.
  - unfold childItem. by rewrite decide_True.
Qed.

Lemma step_child (item : ScopeItem) (d e : Symbol) :
  expands item = true -> ProjectComponent.definition item = Some d ->
  encloses d e \/ instantiates findModuleSymbol d e ->
  exists child, child ∈ getChildren findModuleSymbol item
    /\ ProjectComponent.definition child = Some e
    /\ expands child = true.
Proof.
  intros Hx Hd [Hb|Hi].
  - by apply (block_child item d e).
  - destruct (instance_child item d e Hx Hd Hi) as (child & ? & ? & ? & _).
    by exists child.
Qed.

Lemma preOrder_head (fuel : nat) (path : list Symbol) (item : ScopeItem)
    (vis : list ScopeItem) :
  preOrder findModuleSymbol fuel path item = Some vis -> item ∈ vis.
Proof.
  destruct fuel as [|f]; [discriminate|]. cbn.
  destruct (ProjectComponent.definition item) as [d|]; [|intros [= <-]; left].
  case_decide; [intros [= <-]; left|].
  destruct (mapM _ _); cbn; [intros [= <-]; left | discriminate].
Qed.

(** The children of an expanded node are traversed, and what is visited
    below them is visited. *)
Lemma preOrder_child (f : nat) (path : list Symbol) (item child : ScopeItem)
    (d : Symbol) (vis : list ScopeItem) :
  ProjectComponent.definition item = Some d -> d ∉ path ->
  preOrder findModuleSymbol (S f) path item = Some vis ->
  child ∈ getChildren findModuleSymbol item ->
  exists vis', preOrder findModuleSymbol f (d :: path) child = Some vis'
               /\ vis' ⊆ vis.
Proof.
  intros Hd Hp Hv Hin. cbn in Hv. rewrite Hd, decide_False in Hv by done.
  destruct (mapM _ _) as [subs|] eqn:Hm; [|discriminate].
  cbn in Hv. injection Hv as <-.
  apply mapM_Some_1 in Hm. apply list_elem_of_lookup in Hin as [i Hi].
  destruct (Forall2_lookup_l _ _ _ _ _ Hm Hi) as (vis' & Hsub & Hvis').
  exists vis'. split; [done|]. intros x Hx. right.
  apply list_elem_of_In, in_concat. exists vis'.
  split; apply list_elem_of_In; [|done]. by apply list_elem_of_lookup_2 in Hsub.
Qed.

(** Along a chain that passes no definition twice and none of the path,
    nothing is cut off, and the instance at its end is visited. *)
Lemma chain_visited (m : Symbol) (chain : list Symbol) :
  forall fuel path item d vis,
    expands item = true -> ProjectComponent.definition item = Some d ->
    preOrder findModuleSymbol fuel path item = Some vis ->
    is_chain findModuleSymbol m d chain -> NoDup (d :: chain) ->
    (forall x, x ∈ d :: chain -> x ∉ path) ->
    exists n, n ∈ vis /\ ProjectComponent.definition n = Some m
              /\ cls n = CModule.
Proof.
  induction chain as [|e rest IH]; intros fuel path item d vis Hx Hd Hv Hc Hnd Hoff;
    (destruct fuel as [|f]; [discriminate|]);
    assert (Hdp : d ∉ path) by (apply Hoff; left).
  - destruct (instance_child item d m Hx Hd Hc)
      as (child & Hin & Hcd & _ & Hcls).
    destruct (preOrder_child f path item child d vis Hd Hdp Hv Hin)
      as (vis' & Hv' & Hsub).
    exists child. split; [apply Hsub, (preOrder_head _ _ _ _ Hv')|]. auto.
  - destruct Hc as [Hstep Hc].
    destruct (step_child item d e Hx Hd Hstep) as (child & Hin & Hcd & Hcx).
    destruct (preOrder_child f path item child d vis Hd Hdp Hv Hin)
      as (vis' & Hv' & Hsub).
    apply NoDup_cons in Hnd as [Hd' Hnd].
    destruct (IH f (d :: path) child e vis' Hcx Hcd Hv' Hc Hnd) as (n & Hn & Hres).
    + intros x Hxin Hxp. apply elem_of_cons in Hxp as [->|Hxp]; [done|].
      apply (Hoff x); [by right | done].
    + exists n. split; [by apply Hsub | done].
Qed.

Section Finite.

(** The workspace: every module the lookup can return. *)
Variable W : list Symbol.
Hypothesis lookup_in_workspace :
  forall n s, findModuleSymbol n = Some s -> s ∈ W.

Variable H : nat.
Hypothesis height_workspace : forall s, s ∈ W -> height s <= H.

Lemma rank_child (path : list Symbol) (item child : ScopeItem) (d : Symbol) :
  ProjectComponent.definition item = Some d -> d ∉ path -> height d <= H ->
  child ∈ getChildren findModuleSymbol item ->
  rank W H (d :: path) child < rank W H path item
  /\ (forall e, ProjectComponent.definition child = Some e -> height e <= H).
Proof.
  intros Hd Hp Hh Hin. unfold rank at 2. rewrite Hd, decide_False by done.
  pose proof (height_child d) as Hhc.
  destruct (getChildren_inv findModuleSymbol item child Hin)
    as (d' & Hx & Hd' & Hc & Hk & E).
  assert (d' = d) as -> by congruence.
  set (c := ProjectComponent.instance child) in *.
  specialize (Hhc c Hc).
  assert (Hown : forall e, e = c -> 
            (if decide (e ∈ d :: path) then 0
             else unvisited W (e :: d :: path) * S H + height e)
            < unvisited W (d :: path) * S H + height d).
  { intros e ->. case_decide; [lia|].
    pose proof (unvisited_le W (d :: path) c). nia. }
  assert (Hdef := definition_childItem item (children d) c). rewrite <- E in Hdef.
  unfold rank. rewrite Hdef.
  destruct (decide (type c = "block")) as [Hb|Hb];
    [split; [by apply Hown|]; intros e [= <-]; lia|].
  destruct (decide (type c = "instance")) as [Hi|Hi];
    [|split; [by apply Hown|]; intros e [= <-]; lia].
  destruct (findModuleSymbol (default EmptyString (typeRef c))) as [m|] eqn:Hres;
    [|split; [lia | discriminate]].
  pose proof (lookup_in_workspace _ _ Hres) as Hm.
  pose proof (height_workspace m Hm) as Hhm.
  split; [|by intros e [= <-]].
  case_decide as Hmp; [lia|].
  pose proof (unvisited_lt W (d :: path) m Hm Hmp). nia.
Qed.

(** Fuel above the rank is enough. *)
Lemma preOrder_enough (fuel : nat) :
  forall path item,
    (forall d, ProjectComponent.definition item = Some d -> height d <= H) ->
    rank W H path item < fuel ->
    is_Some (preOrder findModuleSymbol fuel path item).
Proof.
  induction fuel as [|f IH]; intros path item Hh Hr; [lia|]. cbn.
  destruct (ProjectComponent.definition item) as [d|] eqn:Hd; [|done].
  case_decide as Hp; [done|].
  assert (Hm : is_Some (mapM (preOrder findModuleSymbol f (d :: path))
                          (getChildren findModuleSymbol item))).
  { apply mapM_is_Some_2, Forall_forall. intros child Hin. unfold compose.
    destruct (rank_child path item child d Hd Hp (Hh d eq_refl) Hin) as [Hlt Hhe].
    apply IH; [exact Hhe | lia]. }
  destruct Hm as [subs ->]. done.
Qed.

End Finite.

End Traversal.

Section Build.

Variable findModuleSymbol : string -> option Symbol.

Lemma preOrder_S (f : nat) (path : list Symbol) (item : ScopeItem) :
  preOrder findModuleSymbol (S f) path item
  = match ProjectComponent.definition item with
    | None => Some [item]
    | Some d =>
        if decide (d ∈ path) then Some [item]
        else
          subs ← mapM (preOrder findModuleSymbol f (d :: path))
                   (getChildren findModuleSymbol item);
          Some (item :: concat subs)
    end.
Proof. reflexivity. Qed.

(** More fuel does not change a result. *)
Lemma preOrder_more (fuel : nat) :
  forall path item vis,
    preOrder findModuleSymbol fuel path item = Some vis ->
    preOrder findModuleSymbol (S fuel) path item = Some vis.
Proof.
  induction fuel as [|f IH]; intros path item vis Hv; [discriminate|].
  rewrite preOrder_S in Hv. rewrite preOrder_S.
  destruct (ProjectComponent.definition item) as [d|]; [|done].
  case_decide; [done|].
  destruct (mapM (preOrder findModuleSymbol f (d :: path)) _) as [subs|] eqn:Hm;
    [|discriminate].
  apply mapM_Some_1 in Hm.
  assert (Hm' : mapM (preOrder findModuleSymbol (S f) (d :: path))
                  (getChildren findModuleSymbol item) = Some subs).
  { apply mapM_Some_2. eapply Forall2_impl; [exact Hm|]. intros x y. apply IH. }
  by rewrite Hm'.
Qed.

Lemma preOrder_le (fuel fuel' : nat) (path : list Symbol) (item : ScopeItem)
    (vis : list ScopeItem) :
  fuel <= fuel' ->
  preOrder findModuleSymbol fuel path item = Some vis ->
  preOrder findModuleSymbol fuel' path item = Some vis.
Proof.
  induction 1 as [|k _ IH]; [done|]. intros Hv. by apply preOrder_more, IH.
Qed.

Lemma indexTop_visited (fuel : nat) (top : ScopeItem) (visited : list ScopeItem) :
  preOrder findModuleSymbol fuel [] top = Some visited ->
  indexTop findModuleSymbol fuel top = Some (indexVisited visited).
Proof.
  intros Hv. unfold indexTop, preOrderTraversal. by rewrite Hv.
Qed.

(** A visited instance with a definition leaves an entry under that
    definition and its path. *)
Lemma visited_recorded (visited : list ScopeItem) (item : ScopeItem) (d : Symbol) :
  item ∈ visited -> cls item = CModule ->
  ProjectComponent.definition item = Some d ->
  exists entry,
    lookupInstance (modules (indexVisited visited)) d (getPath item) = Some entry
    /\ entry ∈ visited /\ cls entry = CModule
    /\ ProjectComponent.definition entry = Some d
    /\ getPath entry = getPath item.
Proof.
  intros Hin Hc Hd.
  assert (Hf : item ∈ filter (recorded_under d (getPath item)) visited).
  { apply list_elem_of_filter. split; [|done]. split; [|done].
    unfold isInstanceItem. by apply bool_decide_eq_true. }
  destruct (last (filter (recorded_under d (getPath item)) visited)) as [entry|] eqn:E.
  2:{ apply last_None in E. rewrite E in Hf. by apply elem_of_nil in Hf. }
  exists entry. split.
  - unfold indexVisited. cbn [modules finish]. by rewrite lookupInstance_foldl.
  - apply last_Some_elem_of, list_elem_of_filter in E as [(Hk & Hd' & Hp) Hin'].
    unfold isInstanceItem in Hk. by apply bool_decide_eq_true in Hk.
Qed.

(** C4: a node whose definition is already on the path of its
    ancestors is visited and not expanded; so, in a workspace of
    finitely many modules, the pass over a top ends whatever the modules
    instantiate: from [enoughFuel] levels of recursion on, [indexTop]
    returns, and always the same index; and when the top reaches an
    instance of itself, through blocks and instances of other modules,
    such an instance is visited and the index has an entry for it under
    the top. *)
Theorem C4_indexTop_terminates (W : list Symbol) (top : Symbol) :
  (forall n s, findModuleSymbol n = Some s -> s ∈ W) ->
  (forall f path item d,
     ProjectComponent.definition item = Some d -> d ∈ path ->
     preOrder findModuleSymbol (S f) path item = Some [item])
  /\ exists visited,
    (forall fuel, enoughFuel W top <= fuel ->
       preOrder findModuleSymbol fuel [] (RootItem top) = Some visited
       /\ indexTop findModuleSymbol fuel (RootItem top)
          = Some (indexVisited visited))
    /\ (reaches_instance findModuleSymbol top top ->
        exists item entry,
          item ∈ visited /\ cls item = CModule
          /\ ProjectComponent.definition item = Some top
          /\ lookupInstance (modules (indexVisited visited)) top (getPath item)
             = Some entry
          /\ cls entry = CModule
          /\ ProjectComponent.definition entry = Some top).
Proof.
  intros HW. split.
  { intros f path item d Hd Hp. rewrite preOrder_S, Hd. by rewrite decide_True. }
  set (H := max_list (height <$> top :: W)).
  assert (HH : forall s, s ∈ top :: W -> height s <= H).
  { intros s Hs. apply max_list_elem_of_le. by apply list_elem_of_fmap_2. }
  assert (Hsome : is_Some (preOrder findModuleSymbol (enoughFuel W top) []
                             (RootItem top))).
  { apply (preOrder_enough findModuleSymbol W HW H).
    - intros s Hs. apply HH. by right.
    - intros d [= <-]. apply HH. left.
    - unfold rank. cbn [ProjectComponent.definition RootItem].
      rewrite decide_False by apply not_elem_of_nil.
      pose proof (unvisited_bound W [top]). pose proof (HH top ltac:(left)).
      unfold enoughFuel. fold H. nia. }
  destruct Hsome as [visited Hv]. exists visited. split.
  - intros fuel Hf.
    pose proof (preOrder_le _ _ _ _ _ Hf Hv) as Hv'.
    split; [exact Hv' | by apply indexTop_visited].
  - intros Hself. apply reaches_chain in Hself as [chain Hc].
    apply is_chain_simple in Hc as (chain' & Hc' & Hnd).
    destruct (chain_visited findModuleSymbol top chain' _ [] (RootItem top) top
                visited eq_refl eq_refl Hv Hc' Hnd) as (item & Hin & Hd & Hcls).
    { intros x _. apply not_elem_of_nil. }
    destruct (visited_recorded visited item top Hin Hcls Hd)
      as (entry & He & _ & Hec & Hed & _).
    by exists item, entry.
Qed.

End Build.

Lemma lookupModule_in (workspace : list Symbol) (n : string) (s : Symbol) :
  lookupModule workspace n = Some s -> s ∈ workspace.
Proof.
  unfold lookupModule. intros Hf. apply find_some in Hf as [Hin _].
  by apply list_elem_of_In.
Qed.

Lemma C4_indexTop_terminates_witness :
  (forall n s, sampleIndex n = Some s -> s ∈ sampleWorkspace)
  /\ reaches_instance sampleIndex sPing sPing
  /\ exists visited,
       indexTop sampleIndex (enoughFuel sampleWorkspace sPing) pingRoot
       = Some (indexVisited visited)
       /\ exists item entry,
            item ∈ visited /\ cls item = CModule
            /\ ProjectComponent.definition item = Some sPing
            /\ lookupInstance (modules (indexVisited visited)) sPing (getPath item)
               = Some entry
            /\ cls entry = CModule
            /\ ProjectComponent.definition entry = Some sPing.
Proof.
  assert (Hself : reaches_instance sampleIndex sPing sPing).
  { apply (reaches_block _ _ sPing sgen); [split; [elem_of_list_now | reflexivity]|].
    apply (reaches_module _ _ sgen sPong).
    - exists spong. split; [elem_of_list_now|]. by split.
    - apply reaches_here. exists sping. split; [elem_of_list_now|]. by split. }
  split; [exact (lookupModule_in sampleWorkspace)|].
  split; [exact Hself|].
  destruct (C4_indexTop_terminates sampleIndex sampleWorkspace sPing
              (lookupModule_in sampleWorkspace))
    as (_ & visited & Hrun & Hrec).
  exists visited. split.
  - apply (Hrun (enoughFuel sampleWorkspace sPing)). lia.
  - exact (Hrec Hself).
Defined.

(** The run on [Ring]: its root and the inner instance are visited, and
    the inner instance is recorded under [Ring]. *)
Example indexTop_ring :
  preOrder sampleIndex 3 [] ringRoot = Some [ringRoot; ringInner]
  /\ (st ← indexTop sampleIndex 3 ringRoot;
      lookupInstance (modules st) sRing "Ring.r")
     = Some ringInner.
Proof. split; reflexivity. Qed.

(** The run on [Ping]: the instance of [Ping] inside [Pong] is visited
    and not expanded, and it is recorded under [Ping]. *)
Example indexTop_ping :
  preOrder sampleIndex 5 [] pingRoot
  = Some [pingRoot; pingGen; pingPong; pingInner]
  /\ (st ← indexTop sampleIndex 5 pingRoot;
      lookupInstance (modules st) sPing "Ping.gen.q.p")
     = Some pingInner
  /\ preOrder sampleIndex 3 [] pingRoot = None.
Proof. repeat split; reflexivity. Qed.

(** ** Further properties of the scope tree and of the path lookup *)

Section ScopeTree.

Variable findModuleSymbol : string -> option Symbol.

(** X1: the tree of the project view is consistent: every node that
    getChildren returns for an element has that element as its parent,
    and the root, returned for no element, has none. *)
Theorem X1_getParent_of_child (top : option Symbol) (element : option ScopeItem)
    (item : ScopeItem) :
  item ∈ view_getChildren findModuleSymbol top element ->
  ProjectTree.getParent item = element.
Proof.
  unfold ProjectTree.getParent. destruct element as [e|]; cbn.
  - intros Hin.
    destruct (getChildren_inv findModuleSymbol e item Hin) as (d & _ & _ & _ & _ & E).
    rewrite E. apply parent_childItem.
  - destruct top as [t|]; intros Hin; [|by apply elem_of_nil in Hin].
    by apply list_elem_of_singleton in Hin as ->.
Qed.

Lemma hasChildren_expands (item : ScopeItem) :
  expands item = true ->
  hasChildren item
  = match getChildren findModuleSymbol item with
    | [] => false
    | _ :: _ => true
    end.
Proof.
  intros Hx. unfold hasChildren.
  destruct (ProjectComponent.definition item) as [d|] eqn:Hd.
  - rewrite (getChildren_expands findModuleSymbol item d Hx Hd).
    destruct (filter kept (children d)); cbn; [reflexivity|].
    apply bool_decide_eq_true. lia.
  - by rewrite getChildren_undefined.
Qed.

(** X2: an instance node or a block node is shown with an arrow exactly
    when expanding it gives at least one node. *)
Theorem X2_arrow_matches_children (symbolIcon : Symbol -> string) (item : ScopeItem) :
  cls item = CModule \/ cls item = CInternalScope ->
  ProjectTree.collapsibleState (ProjectTree.getTreeItem symbolIcon item)
  = match getChildren findModuleSymbol item with
    | [] => ProjectTree.StateNone
    | _ :: _ => ProjectTree.Collapsed
    end.
Proof.
  intros Hc.
  assert (Hx : expands item = true) by (unfold expands; destruct Hc as [-> | ->]; done).
  assert (E : ProjectTree.collapsibleState (ProjectTree.getTreeItem symbolIcon item)
              = if hasChildren item then ProjectTree.Collapsed
                else ProjectTree.StateNone).
  { unfold ProjectTree.getTreeItem, ProjectTree.ModuleItem_getTreeItem.
    destruct Hc as [-> | ->]; by destruct (ProjectComponent.definition item). }
  rewrite E, (hasChildren_expands item Hx).
  by destruct (getChildren findModuleSymbol item).
Qed.

(** X3: what the lookup of a path reveals is sound: the node revealed
    is an addressable node of the tree of the top (at every level the
    first child of that name), its names from the root down are the
    segments of the cleaned path, and its own path, as getPath gives it,
    is the cleaned path. *)
Theorem X3_revealed_node_has_the_path (top : Symbol) (path : string) (n : ScopeItem) :
  setInstance findModuleSymbol (Some top) path = Revealed n ->
  addressable findModuleSymbol top n
  /\ pathNames n = split (replace_regex path)
  /\ getPath n = replace_regex path.
Proof.
  rewrite setInstance_split. intros H.
  destruct (walk findModuleSymbol (Some top) None (split (replace_regex path)))
    as [msg|[current|]] eqn:Hw; try discriminate.
  injection H as ->.
  destruct (walk_addressable findModuleSymbol top _ None n Hw I) as [Ha Hp]. cbn in Hp.
  split; [exact Ha|]. split; [exact Hp|].
  by rewrite getPath_join, Hp, split_join.
Qed.

(** X4: the path that getPath gives for a node leads back to it: when
    the names from the root down hold no dot and no opening bracket,
    the lookup of the path of an addressable node reveals that node. *)
Theorem X4_path_round_trip (top : Symbol) (n : ScopeItem) :
  addressable findModuleSymbol top n ->
  Forall (fun s => contains "." s = false /\ contains "[" s = false) (pathNames n) ->
  setInstance findModuleSymbol (Some top) (getPath n) = Revealed n.
Proof.
  intros Ha Hnames.
  assert (Hdot : Forall (fun s => contains "." s = false) (pathNames n))
    by (eapply Forall_impl; [exact Hnames|]; by intros s [? ?]).
  assert (Hbr : Forall (fun s => contains "[" s = false) (pathNames n))
    by (eapply Forall_impl; [exact Hnames|]; by intros s [? ?]).
  rewrite setInstance_split, getPath_join.
  rewrite replace_no_match
    by (apply has_match_no_bracket, contains_concat; [reflexivity | exact Hbr]).
  rewrite split_concat by (apply pathNames_nonempty || exact Hdot).
  by rewrite (walk_pathNames findModuleSymbol top n Ha).
Qed.

(** X5: an index after a name does not matter: in a path whose part
    before a bracketed number holds no bracket, the number is dropped
    and the rest is cleaned on its own, so the path is looked up as the
    path without that number. *)
Theorem X5_index_is_dropped (top : Symbol) (before digits rest : string) :
  contains "[" before = false ->
  all_digits digits = true -> digits <> EmptyString ->
  replace_regex (before +:+ String "[" (digits +:+ String "]" rest))
  = before +:+ replace_regex rest
  /\ setInstance findModuleSymbol (Some top)
       (before +:+ String "[" (digits +:+ String "]" rest))
     = setInstance findModuleSymbol (Some top) (before +:+ rest).
Proof.
  intros Hb Hd Hne.
  assert (E : replace_regex (before +:+ String "[" (digits +:+ String "]" rest))
              = before +:+ replace_regex rest).
  { unfold replace_regex. rewrite replace_from_prefix by done.
    by rewrite replace_from_group. }
  split; [exact E|]. rewrite !setInstance_split, E.
  unfold replace_regex at 2. by rewrite replace_from_prefix.
Qed.

(** X6: there is no way below a leaf or below an instance that is not
    resolved: a path that goes on after such a node ends with the error
    message that names the next segment and that node. *)
Theorem X6_no_descent_below_leaf (top : Symbol) (path : string)
    (pre post : list string) (part : string) (c : ScopeItem) :
  walk findModuleSymbol (Some top) None pre = inr (Some c) ->
  expands c = false \/ ProjectComponent.definition c = None ->
  split (replace_regex path) = pre ++ part :: post ->
  setInstance findModuleSymbol (Some top) path
  = ErrorMessage
      ("Could not find instance " +:+ part +:+ " in " +:+ name (instance c)).
Proof.
  intros Hpre Hc Hsplit.
  assert (Hnil : getChildren findModuleSymbol c = [])
    by (destruct Hc; [by apply getChildren_no_expand | by apply getChildren_undefined]).
  rewrite setInstance_split, Hsplit, walk_app, Hpre. cbn. by rewrite Hnil.
Qed.

(** X19: the path of every node that getChildren returns is the path of
    the expanded node, a dot, and the name of the child symbol; the
    paths come in the order of the kept children of the definition. *)
Theorem X19_paths_of_children (this : ScopeItem) (d : Symbol) :
  expands this = true -> ProjectComponent.definition this = Some d ->
  getPath <$> getChildren findModuleSymbol this
  = (fun child => getPath this +:+ "." +:+ name child) <$> filter kept (children d).
Proof.
  intros Hx Hd. rewrite (getChildren_expands findModuleSymbol this d Hx Hd).
  rewrite <- list_fmap_compose. apply list_fmap_ext. intros i child _. cbn.
  pose proof (parent_childItem findModuleSymbol this (children d) child) as Hp.
  pose proof (instance_childItem findModuleSymbol this (children d) child) as Hi.
  destruct (childItem findModuleSymbol this (children d) child) as [c q j df].
  cbn in Hp, Hi. by subst q j.
Qed.

End ScopeTree.

Lemma X1_getParent_of_child_witness :
  pktNode ∈ view_getChildren sampleIndex (Some sSoc) (Some socRoot)
  /\ ProjectTree.getParent pktNode = Some socRoot.
Proof.
  assert (Hin : pktNode ∈ view_getChildren sampleIndex (Some sSoc) (Some socRoot))
    by (cbn [view_getChildren]; rewrite getChildren_socRoot; elem_of_list_now).
  split; [exact Hin|].
  exact (X1_getParent_of_child sampleIndex (Some sSoc) (Some socRoot) pktNode Hin).
Defined.

Lemma X2_arrow_matches_children_witness :
  (cls topBlk = CModule \/ cls topBlk = CInternalScope)
  /\ ProjectTree.collapsibleState (ProjectTree.getTreeItem name topBlk)
     = ProjectTree.Collapsed
  /\ ProjectTree.collapsibleState (ProjectTree.getTreeItem name ghostNode)
     = ProjectTree.StateNone.
Proof.
  split; [by right|]. split.
  - exact (X2_arrow_matches_children sampleIndex name topBlk (or_intror eq_refl)).
  - exact (X2_arrow_matches_children sampleIndex name ghostNode (or_introl eq_refl)).
Defined.

Lemma X3_revealed_node_has_the_path_witness :
  setInstance sampleIndex (Some sTop) "Top.blk[3].u2" = Revealed topU2
  /\ addressable sampleIndex sTop topU2
  /\ pathNames topU2 = split (replace_regex "Top.blk[3].u2")
  /\ getPath topU2 = replace_regex "Top.blk[3].u2".
Proof.
  split; [reflexivity|].
  apply (X3_revealed_node_has_the_path sampleIndex sTop "Top.blk[3].u2" topU2).
  reflexivity.
Defined.

Lemma addressable_topU2 : addressable sampleIndex sTop topU2.
Proof.
  apply (addressable_child _ _ topBlk); [|reflexivity].
  apply (addressable_child _ _ (RootItem sTop)); [|reflexivity].
  apply addressable_root.
Qed.

Lemma X4_path_round_trip_witness :
  addressable sampleIndex sTop topU2
  /\ getPath topU2 = "Top.blk.u2"
  /\ setInstance sampleIndex (Some sTop) (getPath topU2) = Revealed topU2.
Proof.
  split; [exact addressable_topU2|]. split; [reflexivity|].
  apply (X4_path_round_trip sampleIndex sTop topU2 addressable_topU2).
  repeat constructor.
Defined.

Lemma X5_index_is_dropped_witness :
  contains "[" "Top.blk" = false /\ all_digits "12" = true
  /\ replace_regex ("Top.blk" +:+ String "[" ("12" +:+ String "]" ".u2[0]"))
     = "Top.blk" +:+ replace_regex ".u2[0]"
  /\ setInstance sampleIndex (Some sTop)
       ("Top.blk" +:+ String "[" ("12" +:+ String "]" ".u2[0]"))
     = setInstance sampleIndex (Some sTop) ("Top.blk" +:+ ".u2[0]").
Proof.
  split; [reflexivity|]. split; [reflexivity|].
  apply (X5_index_is_dropped sampleIndex sTop "Top.blk" "12" ".u2[0]");
    [reflexivity | reflexivity | discriminate].
Defined.

Lemma X6_no_descent_below_leaf_witness :
  walk sampleIndex (Some sSoc) None ["Soc"; "g0"] = inr (Some ghostNode)
  /\ ProjectComponent.definition ghostNode = None
  /\ setInstance sampleIndex (Some sSoc) "Soc.g0[1].x.y"
     = ErrorMessage "Could not find instance x in g0".
Proof.
  split; [reflexivity|]. split; [reflexivity|].
  apply (X6_no_descent_below_leaf sampleIndex sSoc "Soc.g0[1].x.y"
           ["Soc"; "g0"] ["y"] "x" ghostNode); [reflexivity | by right | reflexivity].
Defined.

Lemma X19_paths_of_children_witness :
  expands topBlk = true /\ ProjectComponent.definition topBlk = Some sblk
  /\ getPath <$> getChildren sampleIndex (RootItem sTop) = ["Top.u1"; "Top.blk"]
  /\ getPath <$> getChildren sampleIndex topBlk
     = (fun child => getPath topBlk +:+ "." +:+ name child)
         <$> filter kept (children sblk).
Proof.
  split; [reflexivity|]. split; [reflexivity|]. split; [reflexivity|].
  apply (X19_paths_of_children sampleIndex topBlk sblk); reflexivity.
Defined.

(** ** Further properties of the reverse index *)

Lemma index_ok_visit (visited : list ScopeItem) (st : IndexState) (item : ScopeItem) :
  index_ok visited (modules st) ->
  index_ok (visited ++ [item]) (modules (visit st item)).
Proof.
  intros Hok.
  assert (Hold : index_ok (visited ++ [item]) (modules st)).
  { intros d m Hm. destruct (Hok d m Hm) as (Hd & Hne & Hin).
    split; [done|]. split; [done|]. intros p v Hv.
    destruct (Hin p v Hv) as (? & ? & ? & ? & ?).
    repeat split; try done. apply elem_of_app. by left. }
  rewrite modules_visit.
  destruct (isInstanceItem item) eqn:Hi; [|exact Hold].
  destruct (ProjectComponent.definition item) as [d0|] eqn:Hd0; [|exact Hold].
  intros d m Hm. destruct (decide (d0 = d)) as [->|Hne].
  2:{ rewrite lookup_insert_ne in Hm by done. by apply Hold. }
  rewrite lookup_insert_eq in Hm. injection Hm as <-.
  set (m0 := default (newModuleItem d) (modules st !! d)).
  assert (Hm0 : InstancesView.definition m0 = d
                /\ forall p v, instances m0 !! p = Some v ->
                     InstancesView.parent v = d /\ getPath (inst v) = p
                     /\ cls (inst v) = CModule
                     /\ ProjectComponent.definition (inst v) = Some d
                     /\ inst v ∈ visited ++ [item]).
  { unfold m0. destruct (modules st !! d) as [m1|] eqn:Hm1; cbn.
    - destruct (Hold d m1 Hm1) as (? & _ & ?). done.
    - split; [done|]. intros p v Hv. by rewrite lookup_empty in Hv. }
  destruct Hm0 as [Hdef Hent]. cbn [addInstance InstancesView.definition instances].
  split; [exact Hdef|]. split; [apply insert_non_empty|].
  intros p v Hv. destruct (decide (getPath item = p)) as [<-|Hp].
  - rewrite lookup_insert_eq in Hv. injection Hv as <-. cbn.
    unfold isInstanceItem in Hi. apply bool_decide_eq_true in Hi.
    repeat split; try done. apply elem_of_app. right. left.
  - rewrite lookup_insert_ne in Hv by done. by apply Hent.
Qed.

Lemma index_ok_foldl (visited : list ScopeItem) :
  index_ok visited (modules (foldl visit startState visited)).
Proof.
  induction visited as [|item visited IH] using rev_ind.
  - intros d m Hm. cbn in Hm. by rewrite lookup_empty in Hm.
  - rewrite foldl_snoc. by apply index_ok_visit.
Qed.

(** X7: the index is well formed after every pass: the entry of the map
    under a definition is the module item of that definition and holds
    at least one instance; every instance item it holds under a path is
    a visited instance node with that definition, has that path as
    label, and has that module item as its parent in the tree. *)
Theorem X7_index_well_formed (visited : list ScopeItem) (d : Symbol)
    (m : InstancesView.ModuleItem) :
  modules (indexVisited visited) !! d = Some m ->
  InstancesView.definition m = d
  /\ instances m <> ∅
  /\ forall p v, instances m !! p = Some v ->
       InstancesTree.instanceLabel v = p
       /\ inst v ∈ visited
       /\ cls (inst v) = CModule
       /\ ProjectComponent.definition (inst v) = Some d
       /\ InstancesTree.getParent (modules (indexVisited visited))
            (InstancesTree.ViewInstance v) = Some m.
Proof.
  intros Hm. destruct (index_ok_foldl visited d m Hm) as (Hd & Hne & Hin).
  split; [exact Hd|]. split; [exact Hne|]. intros p v Hv.
  destruct (Hin p v Hv) as (Hp & Hl & Hc & Hdef & Hvis).
  repeat split; try done. cbn. by rewrite Hp.
Qed.

(** X8: the progress shown depends on nothing but the number n of
    instances with a definition that were visited: before the last
    report the increments add up to the floor of pct, and pct is
    95 (1 - 0.999^n), computed in exact fractions. *)
Theorem X8_progress_closed_form (visited : list ScopeItem) :
  (pct (indexVisited visited)
   == 95 * (1 - Qpow (999 # 1000) (length (filter counted visited))))%Q
  /\ lastReport (indexVisited visited) = Qfloor (pct (indexVisited visited))
  /\ Zsum (reports (foldl visit startState visited))
     = Qfloor (95 * (1 - Qpow (999 # 1000) (length (filter counted visited)))).
Proof.
  destruct (floor_ok_foldl visited startState floor_ok_start)
    as [_ _ Hfl (incs & Hr & _ & Hsum)].
  assert (Hp : (pct (foldl visit startState visited)
                == 95 * (1 - Qpow (999 # 1000) (length (filter counted visited))))%Q).
  { rewrite pct_foldl. cbn [pct startState]. ring. }
  unfold indexVisited, finish. cbn [pct lastReport].
  split; [exact Hp|]. split; [exact Hfl|].
  rewrite Hr, Zsum_cons, Hsum, Hfl, Z.add_0_l. by apply Qfloor_comp.
Qed.

(** X9: however many nodes are visited, at most 96 reports are made,
    and every report between the first and the last carries an
    increment of at least 1. *)
Theorem X9_reports_bounded (visited : list ScopeItem) :
  length (reports (indexVisited visited)) <= 96
  /\ exists incs,
       reports (indexVisited visited) = 0%Z :: incs ++ [100%Z]
       /\ Forall (Z.le 1) incs.
Proof.
  destruct (floor_ok_foldl visited startState floor_ok_start)
    as [_ Hu Hfl (incs & Hr & Hpos & Hsum)].
  pose proof (Qfloor_below_95 _ Hu) as H94.
  pose proof (Zsum_at_least_length incs Hpos) as Hlen.
  unfold indexVisited, finish. cbn [reports]. rewrite Hr. split.
  - cbn [length app]. rewrite length_app. cbn [length]. lia.
  - by exists incs.
Qed.

Lemma foldl_visit_filter (visited : list ScopeItem) (st : IndexState) :
  foldl visit st (filter counted visited) = foldl visit st visited.
Proof.
  revert st. induction visited as [|item visited IH]; intros st; [reflexivity|].
  rewrite filter_cons. destruct (counted_cases item) as [(d & _ & _ & Hc)|[Hs Hc]].
  - rewrite decide_True by done. cbn [foldl]. apply IH.
  - rewrite decide_False by done. cbn [foldl]. by rewrite (visit_skipped st item Hs).
Qed.

(** X10: the visits of the root, of blocks, of leaves and of instances
    that are not resolved change neither the index nor the progress: a
    pass gives what the pass over the visited instances with a
    definition alone gives. *)
Theorem X10_other_visits_ignored (visited : list ScopeItem) :
  indexVisited visited = indexVisited (filter counted visited).
Proof. unfold indexVisited. by rewrite foldl_visit_filter. Qed.

(** X11: revealPath reveals the instance item recorded under the
    definition and the path, that is the last visited instance node with
    both, and nothing when there is none; it leaves what is recorded as
    it is. *)
Theorem X11_revealPath_recorded (visited : list ScopeItem) (d : Symbol) (p : string) :
  inst <$> (InstancesTree.revealPath (modules (indexVisited visited)) d p).2
  = last (filter (recorded_under d p) visited)
  /\ forall d' p',
       lookupInstance
         (InstancesTree.revealPath (modules (indexVisited visited)) d p).1 d' p'
       = lookupInstance (modules (indexVisited visited)) d' p'.
Proof.
  unfold indexVisited, finish. cbn [modules].
  set (ms := modules (foldl visit startState visited)).
  assert (E : inst <$> (InstancesTree.revealPath ms d p).2 = lookupInstance ms d p).
  { unfold InstancesTree.revealPath, DefaultMap_get, lookupInstance.
    destruct (ms !! d) as [m|]; cbn; [reflexivity|]. by rewrite lookup_empty. }
  split; [rewrite E; apply lookupInstance_foldl|].
  intros d' p'. unfold InstancesTree.revealPath, DefaultMap_get, lookupInstance.
  destruct (ms !! d) as [m|] eqn:Hm; cbn; [reflexivity|].
  destruct (decide (d = d')) as [<-|Hne].
  - rewrite lookup_insert_eq, Hm. cbn. by rewrite lookup_empty.
  - by rewrite lookup_insert_ne.
Qed.

Lemma X7_index_well_formed_witness :
  exists m,
    modules (indexVisited [dupRoot; dupFirst; dupSecond]) !! sLeaf = Some m
    /\ InstancesView.definition m = sLeaf
    /\ instances m <> ∅
    /\ forall p v, instances m !! p = Some v ->
         InstancesTree.instanceLabel v = p
         /\ inst v ∈ [dupRoot; dupFirst; dupSecond]
         /\ cls (inst v) = CModule
         /\ ProjectComponent.definition (inst v) = Some sLeaf
         /\ InstancesTree.getParent
              (modules (indexVisited [dupRoot; dupFirst; dupSecond]))
              (InstancesTree.ViewInstance v) = Some m.
Proof.
  destruct (modules (indexVisited [dupRoot; dupFirst; dupSecond]) !! sLeaf)
    as [m|] eqn:Hm.
  - exists m. split; [reflexivity|].
    exact (X7_index_well_formed [dupRoot; dupFirst; dupSecond] sLeaf m Hm).
  - exfalso.
    assert (E : lookupInstance (modules (indexVisited [dupRoot; dupFirst; dupSecond]))
                  sLeaf "Dup.u" = Some dupSecond).
    { unfold indexVisited. cbn [modules finish]. by rewrite lookupInstance_foldl. }
    unfold lookupInstance in E. rewrite Hm in E. discriminate E.
Defined.

(** ** Properties of the linter base class *)

Section Includes.

Variable includes ext : list string.
Hypothesis ext_plain : BaseLinter.marker ∉ ext.

Lemma filter_plain (l : list string) :
  BaseLinter.marker ∉ l -> filter (fun i => i <> BaseLinter.marker) l = l.
Proof.
  induction l as [|x l IH]; [done|]. intros H. apply not_elem_of_cons in H as [Hx Hl].
  rewrite filter_cons, decide_True by done. by rewrite IH.
Qed.

Lemma marker_not_in_filter (l : list string) :
  BaseLinter.marker ∉ filter (fun i => i <> BaseLinter.marker) l.
Proof. intros H. apply list_elem_of_filter in H as [H _]. done. Qed.

Lemma marker_not_in_copies (j : nat) : BaseLinter.marker ∉ concat (replicate j ext).
Proof.
  induction j as [|j IH]; cbn; [apply not_elem_of_nil|].
  apply not_elem_of_app. split; [exact ext_plain | exact IH].
Qed.

Lemma copies_snoc (j : nat) :
  concat (replicate j ext) ++ ext = concat (replicate (S j) ext).
Proof.
  induction j as [|j IH]; cbn; [by rewrite app_nil_r|].
  cbn in IH. by rewrite <- app_assoc, IH.
Qed.

Lemma includesAfter_marker (j : nat) :
  filter (fun i => i <> BaseLinter.marker) (includesAfter includes ext j) ++ ext
  = includesAfter includes ext (S j).
Proof.
  destruct j as [|j]; [cbn; by rewrite app_nil_r|].
  unfold includesAfter. rewrite filter_app.
  rewrite (filter_plain (filter _ includes)) by apply marker_not_in_filter.
  rewrite (filter_plain (concat _)) by apply marker_not_in_copies.
  by rewrite <- app_assoc, copies_snoc.
Qed.

Lemma includes_foldl (todo : list string) :
  forall j,
    foldl (fun acc inc =>
             if decide (inc = BaseLinter.marker)
             then filter (fun i => i <> BaseLinter.marker) acc ++ ext
             else acc)
      (includesAfter includes ext j) todo
    = includesAfter includes ext (j + length (filter (fun i => i = BaseLinter.marker) todo)).
Proof.
  induction todo as [|x todo IH]; intros j; [cbn; by rewrite Nat.add_0_r|].
  cbn [foldl]. rewrite filter_cons. case_decide as Hx.
  - rewrite includesAfter_marker, IH. cbn [length]. f_equal. lia.
  - apply IH.
Qed.

(** X12: what the include paths come to: without the marker the setting
    is taken as it is, or the includes of the extension when it is
    empty; with the marker the other entries of the setting come first,
    in their order, followed by the includes of the extension, once for
    every marker in the setting. *)
Theorem X12_computeIncludes_closed_form :
  BaseLinter.computeIncludes includes ext
  = match length (filter (fun i => i = BaseLinter.marker) includes) with
    | O =>
        match includes with
        | [] => ext
        | _ :: _ => includes
        end
    | S k =>
        filter (fun i => i <> BaseLinter.marker) includes
        ++ concat (replicate (S k) ext)
    end.
Proof.
  unfold BaseLinter.computeIncludes.
  pose proof (includes_foldl includes 0) as E. cbn [includesAfter Nat.add] in E.
  rewrite E.
  destruct (length (filter (fun i => i = BaseLinter.marker) includes)) as [|k].
  - cbn [includesAfter]. by destruct includes.
  - cbn [includesAfter]. case_decide as Hlen; [|reflexivity].
    apply nil_length_inv in Hlen. rewrite Hlen.
    apply app_eq_nil in Hlen as [_ Hc]. cbn in Hc. by apply app_eq_nil in Hc as [-> _].
Qed.

(** X13: the marker itself is never among the include paths that are
    handed to the tool. *)
Theorem X13_marker_never_passed :
  BaseLinter.marker ∉ BaseLinter.computeIncludes includes ext.
Proof.
  unfold BaseLinter.computeIncludes.
  pose proof (includes_foldl includes 0) as E. cbn [includesAfter Nat.add] in E.
  rewrite E. case_decide as Hlen; [exact ext_plain|].
  destruct (length (filter (fun i => i = BaseLinter.marker) includes)) as [|k] eqn:Hk.
  - cbn [includesAfter]. intros Hin.
    assert (Hf : BaseLinter.marker ∈ filter (fun i => i = BaseLinter.marker) includes)
      by (by apply list_elem_of_filter).
    apply length_zero_iff_nil in Hk. rewrite Hk in Hf. by apply elem_of_nil in Hf.
  - cbn [includesAfter]. apply not_elem_of_app.
    split; [apply marker_not_in_filter | apply (marker_not_in_copies (S k))].
Qed.

End Includes.

Lemma X12_computeIncludes_closed_form_witness :
  (BaseLinter.marker ∉ ["/opt/lib"])
  /\ BaseLinter.computeIncludes ["rtl"; "${includes}"; "tb"; "${includes}"]
       ["/opt/lib"]
     = ["rtl"; "tb"; "/opt/lib"; "/opt/lib"].
Proof.
  assert (H : BaseLinter.marker ∉ ["/opt/lib"]).
  { intros Hin. apply list_elem_of_singleton in Hin. discriminate Hin. }
  split; [exact H|].
  exact (X12_computeIncludes_closed_form
           ["rtl"; "${includes}"; "tb"; "${includes}"] ["/opt/lib"] H).
Defined.

Lemma X13_marker_never_passed_witness :
  (BaseLinter.marker ∉ ["/opt/lib"])
  /\ (BaseLinter.marker
      ∉ BaseLinter.computeIncludes ["${includes}"; "${includes}"] ["/opt/lib"]).
Proof.
  assert (H : BaseLinter.marker ∉ ["/opt/lib"]).
  { intros Hin. apply list_elem_of_singleton in Hin. discriminate Hin. }
  split; [exact H|].
  exact (X13_marker_never_passed ["${includes}"; "${includes}"] ["/opt/lib"] H).
Defined.

Section LintGroups.

Variable FileDiagnostic : Type.
Variable file : FileDiagnostic -> string.
Variable joinPath : string -> string.

Lemma fmap_get_push (fmap : list (string * list FileDiagnostic))
    (diag : FileDiagnostic) (f : string) :
  fmap_get (BaseLinter.fmap_push FileDiagnostic file fmap diag) f
  = if decide (file diag = f) then fmap_get fmap f ++ [diag] else fmap_get fmap f.
Proof.
  induction fmap as [|[g ds] rest IH]; cbn.
  - by case_decide.
  - destruct (decide (g = file diag)) as [->|Hg]; cbn.
    + by case_decide.
    + rewrite IH. destruct (decide (g = f)) as [->|Hf]; [|reflexivity].
      by rewrite decide_False by done.
Qed.

Lemma fmap_keys_push (fmap : list (string * list FileDiagnostic))
    (diag : FileDiagnostic) :
  (BaseLinter.fmap_push FileDiagnostic file fmap diag).*1
  = if decide (file diag ∈ fmap.*1) then fmap.*1 else fmap.*1 ++ [file diag].
Proof.
  induction fmap as [|[g ds] rest IH]; cbn.
  - rewrite decide_False by apply not_elem_of_nil. reflexivity.
  - destruct (decide (g = file diag)) as [->|Hg]; cbn.
    + rewrite decide_True by left. reflexivity.
    + rewrite IH. destruct (decide (file diag ∈ rest.*1)) as [Hin|Hin].
      * rewrite decide_True by (by right). reflexivity.
      * rewrite decide_False; [reflexivity|].
        intros H. apply elem_of_cons in H as [H|H]; [by subst | done].
Qed.

(** The groups after the loop: distinct files, and for a file its
    diagnostics in the order they came; a file is there exactly when it
    has a diagnostic. *)
Lemma fmap_groups (diags : list FileDiagnostic) :
  NoDup ((foldl (BaseLinter.fmap_push FileDiagnostic file) [] diags).*1)
  /\ forall f,
       fmap_get (foldl (BaseLinter.fmap_push FileDiagnostic file) [] diags) f
       = filter (fun d => file d = f) diags
       /\ (f ∈ (foldl (BaseLinter.fmap_push FileDiagnostic file) [] diags).*1
           <-> filter (fun d => file d = f) diags <> []).
Proof.
  induction diags as [|d diags (Hnd & IH)] using rev_ind.
  - split; [constructor|]. intros f. split; [reflexivity|]. cbn.
    split; [intros H; by apply elem_of_nil in H | done].
  - rewrite foldl_snoc.
    set (l := foldl (BaseLinter.fmap_push FileDiagnostic file) [] diags) in *.
    split.
    + rewrite fmap_keys_push. case_decide as Hin; [exact Hnd|].
      apply NoDup_app. split; [exact Hnd|]. split; [|apply NoDup_singleton].
      intros x Hx Hx'. apply list_elem_of_singleton in Hx' as ->. done.
    + intros f. destruct (IH f) as [Hget Hkey].
      rewrite fmap_get_push, fmap_keys_push, filter_app, filter_cons, filter_nil, Hget.
      split; [case_decide; by rewrite ?app_nil_r|].
      destruct (decide (file d = f)) as [<-|Hf].
      * split; [intros _ H; by apply app_eq_nil in H as [_ ?]|]. intros _.
        case_decide; [done|]. apply elem_of_app. right. left.
      * rewrite app_nil_r, <- Hkey. case_decide; [done|].
        rewrite elem_of_app, list_elem_of_singleton.
        split; [intros [Hk|Hk]; [exact Hk | by subst f] | by left].
Qed.

Lemma foldl_insert_other (l : list (string * list FileDiagnostic)) :
  forall (c : gmap string (list FileDiagnostic)) (uri : string),
    (forall g, g ∈ l.*1 -> uri <> joinPath g) ->
    foldl (fun c entry => <[joinPath entry.1 := entry.2]> c) c l !! uri = c !! uri.
Proof.
  induction l as [|[g ds] rest IH]; intros c uri Huri; [reflexivity|].
  cbn [foldl]. rewrite IH by (intros g' Hg'; apply Huri; by right).
  cbn. rewrite lookup_insert_ne; [reflexivity|].
  intros E. by apply (Huri g); [left|].
Qed.

Lemma foldl_insert_lookup (l : list (string * list FileDiagnostic)) :
  forall (c : gmap string (list FileDiagnostic)) (f : string),
    NoDup (l.*1) -> f ∈ l.*1 ->
    (forall g, g ∈ l.*1 -> joinPath g = joinPath f -> g = f) ->
    foldl (fun c entry => <[joinPath entry.1 := entry.2]> c) c l !! joinPath f
    = Some (fmap_get l f).
Proof.
  induction l as [|[g ds] rest IH]; intros c f Hnd Hf Hinj.
  - by apply elem_of_nil in Hf.
  - cbn in Hnd. apply NoDup_cons in Hnd as [Hg Hnd]. cbn [foldl fmap_get].
    destruct (decide (g = f)) as [->|Hgf].
    + rewrite foldl_insert_other; [cbn; by rewrite lookup_insert_eq|].
      intros g' Hg' E. apply Hg. rewrite <- (Hinj g'); [exact Hg'|by right|done].
    + apply IH; [exact Hnd| |].
      * apply elem_of_cons in Hf as [Hf|Hf]; [by subst|exact Hf].
      * intros g' Hg'. apply Hinj. by right.
Qed.

(** X14: after a lint of a project in which no two files with a
    diagnostic have the same uri, the collection holds under the uri of
    every such file exactly the diagnostics reported for it, in the
    order they were reported; a uri that is not the uri of a file with a
    diagnostic has no entry. *)
Theorem X14_lint_groups_by_file (diags : list FileDiagnostic) :
  (forall d1 d2, d1 ∈ diags -> d2 ∈ diags ->
     joinPath (file d1) = joinPath (file d2) -> file d1 = file d2) ->
  (forall d, d ∈ diags ->
     BaseLinter.lintProject FileDiagnostic file joinPath diags !! joinPath (file d)
     = Some (filter (fun d' => file d' = file d) diags))
  /\ (forall uri, (forall d, d ∈ diags -> uri <> joinPath (file d)) ->
        BaseLinter.lintProject FileDiagnostic file joinPath diags !! uri = None).
Proof.
  intros Hinj. unfold BaseLinter.lintProject.
  destruct (fmap_groups diags) as [Hnd Hgroups].
  assert (Hkeys : forall g,
            g ∈ (foldl (BaseLinter.fmap_push FileDiagnostic file) [] diags).*1 ->
            exists d, d ∈ diags /\ file d = g).
  { intros g Hg. apply (Hgroups g) in Hg.
    destruct (filter (fun d => file d = g) diags) as [|d ds] eqn:E; [done|].
    assert (Hd : d ∈ filter (fun d => file d = g) diags) by (rewrite E; left).
    apply list_elem_of_filter in Hd as [Hd1 Hd2]. by exists d. }
  split.
  - intros d Hd. destruct (Hgroups (file d)) as [Hget Hkey].
    rewrite (foldl_insert_lookup _ ∅ (file d) Hnd).
    + by rewrite Hget.
    + apply Hkey. intros E.
      assert (Hin : d ∈ filter (fun d' => file d' = file d) diags)
        by (by apply list_elem_of_filter).
      rewrite E in Hin. by apply elem_of_nil in Hin.
    + intros g Hg Eg. destruct (Hkeys g Hg) as (d' & Hd' & <-).
      by apply Hinj.
  - intros uri Huri. rewrite foldl_insert_other; [apply lookup_empty|].
    intros g Hg. destruct (Hkeys g Hg) as (d & Hd & <-). by apply Huri.
Qed.

End LintGroups.

Lemma X14_lint_groups_by_file_witness :
  joinWorkspace "./a.v" = joinWorkspace "a.v"
  /\ BaseLinter.lintProject (string * nat) fst joinWorkspace
       [("a.v", 1); ("b.v", 2); ("a.v", 3)] !! "/ws/a.v"
     = Some [("a.v", 1); ("a.v", 3)]
  /\ BaseLinter.lintProject (string * nat) fst joinWorkspace
       [("a.v", 1); ("b.v", 2); ("a.v", 3)] !! "/ws/c.v"
     = None.
Proof.
  split; [reflexivity|].
  assert (Hinj : forall d1 d2 : string * nat,
            d1 ∈ [("a.v", 1); ("b.v", 2); ("a.v", 3)] ->
            d2 ∈ [("a.v", 1); ("b.v", 2); ("a.v", 3)] ->
            joinWorkspace d1.1 = joinWorkspace d2.1 -> d1.1 = d2.1).
  { intros d1 d2 H1 H2 E.
    repeat (apply elem_of_cons in H1 as [->|H1]);
      try (by apply elem_of_nil in H1);
      repeat (apply elem_of_cons in H2 as [->|H2]);
      try (by apply elem_of_nil in H2);
      first [reflexivity | discriminate E]. }
  destruct (X14_lint_groups_by_file (string * nat) fst joinWorkspace
              [("a.v", 1); ("b.v", 2); ("a.v", 3)] Hinj) as [Hfile Hother].
  split.
  - apply (Hfile ("a.v", 1)). left.
  - apply Hother. intros d Hd.
    repeat (apply elem_of_cons in Hd as [->|Hd]);
      try (by apply elem_of_nil in Hd); discriminate.
Defined.

Lemma replaceBackslashes_length (path : string) :
  String.length (BaseLinter.replaceBackslashes path) = String.length path.
Proof. induction path as [|c r IH]; [reflexivity|]. cbn. by rewrite IH. Qed.

Lemma replaceBackslashes_clean (path : string) :
  contains "\" (BaseLinter.replaceBackslashes path) = false.
Proof.
  induction path as [|c r IH]; [reflexivity|]. cbn [BaseLinter.replaceBackslashes contains].
  destruct (decide (c = "\"%char)) as [->|Hc].
  - by rewrite decide_False.
  - by rewrite decide_False.
Qed.

Lemma replaceBackslashes_plain (path : string) :
  contains "\" path = false -> BaseLinter.replaceBackslashes path = path.
Proof.
  induction path as [|c r IH]; [reflexivity|]. cbn [contains].
  case_decide as Hc; [discriminate|]. intros H.
  cbn [BaseLinter.replaceBackslashes]. by rewrite decide_False, (IH H).
Qed.

(** X15: on Windows without WSL the adjusted path has the length of the
    path and holds no backslash, a path without backslash is left as it
    is, and adjusting twice is adjusting once; on other systems the path
    is returned as it is. *)
Theorem X15_wslAdjust_slashes (useWsl : bool) (getWslPath : string -> string)
    (path : string) :
  contains "\" (BaseLinter.wslAdjust true false getWslPath path) = false
  /\ String.length (BaseLinter.wslAdjust true false getWslPath path)
     = String.length path
  /\ (contains "\" path = false ->
      BaseLinter.wslAdjust true false getWslPath path = path)
  /\ BaseLinter.wslAdjust true false getWslPath
       (BaseLinter.wslAdjust true false getWslPath path)
     = BaseLinter.wslAdjust true false getWslPath path
  /\ BaseLinter.wslAdjust false useWsl getWslPath path = path.
Proof.
  cbn [BaseLinter.wslAdjust]. repeat split.
  - apply replaceBackslashes_clean.
  - apply replaceBackslashes_length.
  - apply replaceBackslashes_plain.
  - apply replaceBackslashes_plain, replaceBackslashes_clean.
Qed.

Lemma X15_wslAdjust_slashes_witness :
  contains "\" "C:/work/top.sv" = false
  /\ BaseLinter.wslAdjust true false id "C:\work\top.sv" = "C:/work/top.sv"
  /\ BaseLinter.wslAdjust true false id "C:/work/top.sv" = "C:/work/top.sv".
Proof.
  split; [reflexivity|]. split; [reflexivity|].
  destruct (X15_wslAdjust_slashes false id "C:/work/top.sv") as (_ & _ & Hplain & _).
  apply Hplain. reflexivity.
Defined.

(** ** The index when no two instances share a definition and a path *)

Lemma recorded_counted (d : Symbol) (p : string) (item : ScopeItem) :
  recorded_under d p item -> counted item /\ indexKey item = (Some d, p).
Proof.
  intros (Hi & Hd & Hp). unfold counted, indexKey. rewrite Hd, Hp. by repeat split.
Qed.

Lemma filter_recorded_none (visited : list ScopeItem) (d : Symbol) (p : string) :
  (Some d, p) ∉ indexKey <$> filter counted visited ->
  filter (recorded_under d p) visited = [].
Proof.
  intros Hk. induction visited as [|x l IH]; [reflexivity|].
  rewrite filter_cons. rewrite filter_cons in Hk.
  destruct (decide (recorded_under d p x)) as [Hx|Hx].
  - destruct (recorded_counted d p x Hx) as [Hc Hkey].
    rewrite decide_True in Hk by done. exfalso. apply Hk. rewrite <- Hkey. left.
  - apply IH. intros Hin. apply Hk. case_decide; [by right | done].
Qed.

Lemma filter_recorded_single (visited : list ScopeItem) (d : Symbol) (p : string)
    (item : ScopeItem) :
  NoDup (indexKey <$> filter counted visited) ->
  item ∈ visited -> recorded_under d p item ->
  filter (recorded_under d p) visited = [item].
Proof.
  intros Hnd Hin Hrec. destruct (recorded_counted d p item Hrec) as [Hc Hkey].
  induction visited as [|x l IH]; [by apply elem_of_nil in Hin|].
  rewrite filter_cons. rewrite filter_cons in Hnd.
  destruct (decide (recorded_under d p x)) as [Hx|Hx].
  - destruct (recorded_counted d p x Hx) as [Hcx Hkx].
    rewrite decide_True in Hnd by done. cbn in Hnd.
    apply NoDup_cons in Hnd as [Hfresh Hnd]. rewrite Hkx in Hfresh.
    rewrite (filter_recorded_none l d p Hfresh).
    apply elem_of_cons in Hin as [->|Hin]; [reflexivity|].
    exfalso. apply Hfresh. rewrite <- Hkey.
    apply list_elem_of_fmap_2, list_elem_of_filter. by split.
  - apply elem_of_cons in Hin as [->|Hin]; [done|].
    apply IH; [|exact Hin]. case_decide; [|exact Hnd].
    cbn in Hnd. by apply NoDup_cons in Hnd as [_ Hnd].
Qed.

(** X16: when no two visited instances with a definition share both
    the definition and the path, the index records exactly these
    instances: each of them is found under its definition and its path,
    and whatever is found there is that instance. *)
Theorem X16_index_exact_when_keys_differ (visited : list ScopeItem) (item : ScopeItem)
    (d : Symbol) :
  NoDup (indexKey <$> filter counted visited) ->
  item ∈ visited -> cls item = CModule ->
  ProjectComponent.definition item = Some d ->
  lookupInstance (modules (indexVisited visited)) d (getPath item) = Some item.
Proof.
  intros Hnd Hin Hc Hd.
  assert (Hrec : recorded_under d (getPath item) item).
  { split; [|done]. unfold isInstanceItem. by apply bool_decide_eq_true. }
  unfold indexVisited. cbn [modules finish].
  by rewrite lookupInstance_foldl, (filter_recorded_single visited d _ item Hnd Hin Hrec).
Qed.

Lemma X16_index_exact_when_keys_differ_witness :
  NoDup (indexKey <$> filter counted (RootItem sTop :: [topBlk; topU2]))
  /\ lookupInstance (modules (indexVisited (RootItem sTop :: [topBlk; topU2])))
       sLeaf "Top.blk.u2" = Some topU2.
Proof.
  assert (Hnd : NoDup (indexKey <$> filter counted (RootItem sTop :: [topBlk; topU2])))
    by (apply (bool_decide_unpack _); vm_compute; exact I).
  split; [exact Hnd|].
  apply (X16_index_exact_when_keys_differ (RootItem sTop :: [topBlk; topU2])
           topU2 sLeaf Hnd); [elem_of_list_now | reflexivity | reflexivity].
Defined.

(** X17: cleaning a path never makes it longer, and leaves it as it is
    exactly when it holds no bracketed number. *)
Theorem X17_cleaned_path_shorter (path : string) :
  String.length (replace_regex path) <= String.length path
  /\ (replace_regex path = path <-> has_match path = false)
  /\ (has_match path = true ->
      String.length (replace_regex path) + 3 <= String.length path).
Proof.
  split; [|split].
  - pose proof (length_replace_from path 0). unfold replace_regex. lia.
  - split; [|apply replace_no_match]. intros E.
    destruct (has_match path) eqn:H; [|reflexivity].
    apply replace_match_shorter in H. rewrite E in H. lia.
  - unfold replace_regex. induction path as [|c r IH]; [discriminate|].
    cbn [has_match replace_from].
    destruct (regex_exec (String c r)) as [n|] eqn:E.
    + intros _. pose proof (length_replace_from r (pred n)) as Hlen.
      assert (Hn : 3 <= n <= S (String.length r)).
      { unfold regex_exec in E. destruct c as [[] [] [] [] [] [] [] []]; try discriminate.
        destruct r as [|d r']; [discriminate|].
        destruct (is_digit d); [|discriminate].
        pose proof (length_replace_from r' 0) as _.
        assert (Hsuf : forall s, String.length (after_digits s) <= String.length s).
        { clear. induction s as [|x s IHs]; [done|]. cbn.
          destruct (is_digit x); cbn; lia. }
        specialize (Hsuf r').
        destruct (after_digits r') as [|e rest]; [discriminate|].
        destruct e as [[] [] [] [] [] [] [] []]; try discriminate.
        injection E as <-. cbn [String.length] in *. lia. }
      cbn [String.length]. lia.
    + intros H. specialize (IH H). cbn [String.length]. lia.
Qed.

Lemma X17_cleaned_path_shorter_witness :
  has_match "a.b[3].c" = true
  /\ String.length (replace_regex "a.b[3].c") + 3 <= String.length "a.b[3].c".
Proof.
  split; [reflexivity|].
  destruct (X17_cleaned_path_shorter "a.b[3].c") as (_ & _ & H).
  apply H. reflexivity.
Defined.

(** X18: with a top selected the command never returns without a
    word: it reveals a node or shows an error message; the test for no
    current node after the loop never holds. *)
Theorem X18_setInstance_never_silent (findModuleSymbol : string -> option Symbol)
    (top : Symbol) (path : string) (part : string) (parts : list string) :
  setInstance findModuleSymbol (Some top) path <> Returned
  /\ walk findModuleSymbol (Some top) None (part :: parts) <> inr None.
Proof.
  assert (Hw : forall ps,
             ps <> [] -> walk findModuleSymbol (Some top) None ps <> inr None).
  { intros ps Hne Hnone.
    by apply walk_current in Hnone as [-> _]. }
  split; [|by apply Hw]. rewrite setInstance_split.
  specialize (Hw (split (replace_regex path)) (split_nonempty _)).
  destruct (walk findModuleSymbol (Some top) None (split (replace_regex path)))
    as [msg|[c|]]; done.
Qed.
